(** * saito::base (tpl_orm.hpp): the keyed entity manager, its factories and
      the per-entity capability interface, embedded in Rocq.

    The header defines three things:
    - the factories [_base<val_t>::new_instance] and
      [_base_assigned<val_t,_flag>::new_instance];
    - the abstract interface [_bai<val_t>] (pure virtual methods only);
    - the manager [_base_mgr<val_t>]: a [std::map<key_t, shared_ptr<val_t>>]
      guarded by a [std::recursive_mutex], with [instance], [add], [get], [del].
    The wrappers [_base_safe] and [_base_assigned_safe] only add a mutex
    member that no method uses; they inherit [new_instance] as it is.

    Objects live in a store indexed by addresses; a [std::shared_ptr] is
    either empty or carries the address of the object it owns.  Method bodies
    are given twice: as functions on the manager object (what a call computes
    from entry to return) and as a small-step machine in which several threads
    run the same bodies statement by statement against one manager and its
    mutex. *)

From stdpp Require Import base option list gmap strings.
From Stdlib Require Import ZArith.

(* ================================================================== *)
(** * Handles                                                          *)
(* ================================================================== *)

Abbreviation addr := nat.

(** [std::shared_ptr<X>]: [None] is the empty handle ([nullptr]),
    [Some a] owns the object stored at address [a]. *)
Abbreviation shared_ptr := (option addr).
Abbreviation nullptr := (@None addr).

(** [typedef std::shared_ptr<val_t> val_pt;] and
    [typedef std::shared_ptr<_base_mgr<val_t>> instance_t;] *)
Abbreviation val_pt := shared_ptr.
Abbreviation instance_t := shared_ptr.

(** Thread identifiers, for the owner of a mutex. *)
Abbreviation tid := nat.

(* ================================================================== *)
(** * The two library classes the manager is built from                *)
(* ================================================================== *)

(** [std::map<K, V>] for a key type whose ordering is a strict total order
    (as for [int], the key type of the header's test entity). *)
Module std_map.
Section std_map.
Context `{Countable key_t} {mapped_t : Type}.

(** [m.find(k)]: [None] stands for the iterator [m.end()], [Some v] for an
    iterator whose [->second] is [v]. *)
Definition find (k : key_t) (m : gmap key_t mapped_t) : option mapped_t :=
  m !! k.

(** [m.insert(std::make_pair(k, v))]: inserts unless the key is there;
    an existing element is never overwritten. *)
Definition insert (k : key_t) (v : mapped_t) (m : gmap key_t mapped_t)
  : gmap key_t mapped_t :=
  match m !! k with
  | Some _ => m
  | None => <[k := v]> m
  end.

(** [m.erase(k)]: removes the element with that key, if any. *)
Definition erase (k : key_t) (m : gmap key_t mapped_t) : gmap key_t mapped_t :=
  delete k m.
End std_map.
End std_map.

(** [std::recursive_mutex]: free, or held by one thread a positive number
    of times. *)
Module recursive_mutex.
Definition t := option (tid * nat).

Definition free : t := None.

(** [lock()] called by thread [me]: [None] when the caller has to wait
    (another thread holds the mutex). *)
Definition lock (me : tid) (m : t) : option t :=
  match m with
  | None => Some (Some (me, 1))
  | Some (owner, n) =>
      if decide (owner = me) then Some (Some (owner, S n)) else None
  end.

(** [unlock()] called by the owner. *)
Definition unlock (m : t) : t :=
  match m with
  | Some (owner, S (S n)) => Some (owner, S n)
  | _ => None
  end.
End recursive_mutex.

(* ================================================================== *)
(** * _base_mgr<val_t>: the manager object and its three methods       *)
(* ================================================================== *)

Section base_mgr.
Context `{Countable key_t}.

(** The two non-static data members. *)
Record _base_mgr := mk_base_mgr {
  m_mtx : recursive_mutex.t;
  m_data : gmap key_t val_pt
}.

(** [new _base_mgr<val_t>()]: a free mutex and an empty map. *)
Definition _base_mgr_ctor : _base_mgr :=
  {| m_mtx := recursive_mutex.free; m_data := ∅ |}.

(** The methods below give what one call computes between entry and
    return when it is not interleaved with another thread: the
    [lock_guard] takes [m_mtx] on entry and gives it back on return, so
    [m_mtx] is the same before and after (lemma [solo_call] derives
    these functions from the statement-level machine). *)

(** [bool add (const key_t& k, val_pt v)] *)
Definition add (k : key_t) (v : val_pt) (r : _base_mgr) : bool * _base_mgr :=
  match std_map.find k (m_data r) with
  | Some _ => (false, r)                       (* it != m_data.end() *)
  | None =>
      (true, {| m_mtx := m_mtx r;
                m_data := std_map.insert k v (m_data r) |})
  end.

(** [val_pt get (const key_t& k)] *)
Definition get (k : key_t) (r : _base_mgr) : val_pt :=
  match std_map.find k (m_data r) with
  | None => nullptr                            (* it == m_data.end() *)
  | Some second => second
  end.

(** [void del (const key_t& k)] *)
Definition del (k : key_t) (r : _base_mgr) : _base_mgr :=
  {| m_mtx := m_mtx r; m_data := std_map.erase k (m_data r) |}.
End base_mgr.

Arguments _base_mgr key_t {_ _}.
Arguments mk_base_mgr {_ _ _} _ _.

(* ================================================================== *)
(** * The same three bodies, statement by statement, run by threads    *)
(* ================================================================== *)

Section machine.
Context `{Countable key_t}.

(** A pending call of one thread on the shared manager. *)
Inductive call :=
| call_add (k : key_t) (v : val_pt)
| call_get (k : key_t)
| call_del (k : key_t).

Inductive result :=
| ret_bool (b : bool)
| ret_ptr (p : val_pt)
| ret_void.

(** Program points inside a method body. *)
Inductive pc :=
| at_entry                        (* std::lock_guard<...> l(m_mtx);      *)
| at_find                         (* auto it = m_data.find(k);           *)
| at_test (it : option val_pt)    (* if (it != / == m_data.end())        *)
| at_insert                       (* m_data.insert(std::make_pair(k,v)); *)
| at_erase                        (* m_data.erase(k);                    *)
| at_return (res : result)        (* return res;  l.~lock_guard()        *)
| finished (res : result).

Record thread := mk_thread { th_call : call; th_pc : pc }.

(** The statement after the [lock_guard] declaration. *)
Definition body_start (c : call) : pc :=
  match c with
  | call_add _ _ | call_get _ => at_find
  | call_del _ => at_erase
  end.

(** One statement of thread [me] against the manager object; [None] when
    the thread cannot move (it waits for the mutex, or it has returned). *)
Definition exec (me : tid) (th : thread) (r : _base_mgr key_t)
  : option (thread * _base_mgr key_t) :=
  let c := th_call th in
  match th_pc th with
  | at_entry =>
      match recursive_mutex.lock me (m_mtx r) with
      | Some mtx => Some (mk_thread c (body_start c), mk_base_mgr mtx (m_data r))
      | None => None
      end
  | at_find =>
      match c with
      | call_add k _ | call_get k =>
          Some (mk_thread c (at_test (std_map.find k (m_data r))), r)
      | call_del _ => None
      end
  | at_test it =>
      match c with
      | call_add _ _ =>
          Some (mk_thread c (match it with
                             | Some _ => at_return (ret_bool false)
                             | None => at_insert
                             end), r)
      | call_get _ =>
          Some (mk_thread c (match it with
                             | None => at_return (ret_ptr nullptr)
                             | Some second => at_return (ret_ptr second)
                             end), r)
      | call_del _ => None
      end
  | at_insert =>
      match c with
      | call_add k v =>
          Some (mk_thread c (at_return (ret_bool true)),
                mk_base_mgr (m_mtx r) (std_map.insert k v (m_data r)))
      | _ => None
      end
  | at_erase =>
      match c with
      | call_del k =>
          Some (mk_thread c (at_return ret_void),
                mk_base_mgr (m_mtx r) (std_map.erase k (m_data r)))
      | _ => None
      end
  | at_return res =>
      Some (mk_thread c (finished res),
            mk_base_mgr (recursive_mutex.unlock (m_mtx r)) (m_data r))
  | finished _ => None
  end.

(** One manager shared by a pool of threads; thread [i] is the [i]-th
    element of the pool. *)
Record config := mk_config {
  obj : _base_mgr key_t;
  pool : list thread
}.

(** The scheduler lets thread [i] execute one statement. *)
Definition step (i : tid) (c : config) : option config :=
  match pool c !! i with
  | Some th =>
      match exec i th (obj c) with
      | Some (th', r') => Some (mk_config r' (<[i := th']> (pool c)))
      | None => None
      end
  | None => None
  end.

(** A schedule is the order in which threads are given a statement. *)
Fixpoint run (sched : list tid) (c : config) : option config :=
  match sched with
  | [] => Some c
  | i :: sched' =>
      match step i c with
      | Some c' => run sched' c'
      | None => None
      end
  end.

(** All threads enter their call at the same time on manager [r]. *)
Definition spawn (r : _base_mgr key_t) (cs : list call) : config :=
  mk_config r (map (fun c => mk_thread c at_entry) cs).

Definition has_returned (th : thread) : bool :=
  match th_pc th with finished _ => true | _ => false end.

Definition all_returned (c : config) : bool := forallb has_returned (pool c).

(** The value a thread's call returned, once it has. *)
Definition returned (th : thread) : option result :=
  match th_pc th with finished res => Some res | _ => None end.

Definition returned_bool (b : bool) (th : thread) : bool :=
  match th_pc th with
  | finished (ret_bool b') => Bool.eqb b b'
  | _ => false
  end.

(** How many calls of the pool returned the boolean [b]. *)
Definition count_returned (b : bool) (c : config) : nat :=
  length (List.filter (returned_bool b) (pool c)).

(** Statements a thread still has to execute, at most. *)
Definition remaining (th : thread) : nat :=
  match th_pc th with
  | at_entry => 5
  | at_find => 4
  | at_test _ => 3
  | at_insert => 2
  | at_erase => 2
  | at_return _ => 1
  | finished _ => 0
  end.

Definition work_left (c : config) : nat := sum_list (map remaining (pool c)).

(** The key a call is about. *)
Definition call_key (c : call) : key_t :=
  match c with call_add k _ | call_get k | call_del k => k end.
End machine.

Arguments call key_t : clear implicits.
Arguments thread key_t : clear implicits.
Arguments config key_t {_ _}.

(** ** What holds in every state the machine can reach *)

Section machine_invariants.
Context `{Countable key_t}.

(** A thread is inside a method body, between taking the mutex and giving
    it back. *)
Definition in_section (th : thread key_t) : bool :=
  match th_pc th with
  | at_find | at_test _ | at_insert | at_erase | at_return _ => true
  | at_entry | finished _ => false
  end.

(** The program point of a thread belongs to the method it called. *)
Definition well_placed (th : thread key_t) : Prop :=
  match th_pc th, th_call th with
  | at_find, call_del _ => False
  | at_test _, call_del _ => False
  | at_insert, (call_get _ | call_del _) => False
  | at_erase, (call_add _ _ | call_get _) => False
  | _, _ => True
  end.

(** The mutex is held exactly by the thread that is inside a body, once. *)
Record serialized (c : config key_t) : Prop := mk_serialized {
  ser_owner : forall i th, pool c !! i = Some th ->
    (in_section th = true <-> m_mtx (obj c) = Some (i, 1));
  ser_mtx : m_mtx (obj c) = None \/
    exists i, m_mtx (obj c) = Some (i, 1) /\ is_Some (pool c !! i);
  ser_placed : forall i th, pool c !! i = Some th -> well_placed th
}.

(** A thread's call of add returned true, or is about to. *)
Definition won (k : key_t) (th : thread key_t) : bool :=
  bool_decide (call_key (th_call th) = k) &&
  match th_pc th with
  | at_return (ret_bool true) | finished (ret_bool true) => true
  | _ => false
  end.

Definition wins (k : key_t) (l : list (thread key_t)) : nat :=
  length (List.filter (won k) l).

(** What a thread that runs add knows about the map at its program
    point. *)
Definition add_thread_inv (data : gmap key_t val_pt) (th : thread key_t) : Prop :=
  match th_call th with
  | call_add k v =>
      match th_pc th with
      | at_entry | at_find => True
      | at_test it => it = data !! k
      | at_insert => data !! k = None
      | at_return (ret_bool b) | finished (ret_bool b) =>
          if b then data !! k = Some v else is_Some (data !! k)
      | _ => False
      end
  | _ => False
  end.

(** A pool in which every thread runs add, started on the map [m0]. *)
Record add_inv (m0 : gmap key_t val_pt) (c : config key_t) : Prop := mk_add_inv {
  ai_threads : forall i th, pool c !! i = Some th ->
    add_thread_inv (m_data (obj c)) th;
  ai_kept : m0 ⊆ m_data (obj c);
  ai_wins : forall k,
    wins k (pool c) =
      if decide (is_Some (m_data (obj c) !! k) /\ m0 !! k = None) then 1 else 0
}.

(** The calls of a pool in which thread [i] runs add with the [i]-th key
    and handle of [args]. *)
Definition add_calls (args : list (key_t * val_pt)) : list (call key_t) :=
  map (fun a => call_add a.1 a.2) args.

(** What one call returns, and the manager it leaves, when no other thread
    runs: the three methods of [_base_mgr]. *)
Definition outcome (c : call key_t) (r : _base_mgr key_t)
  : result * _base_mgr key_t :=
  match c with
  | call_add k v => (ret_bool (add k v r).1, (add k v r).2)
  | call_get k => (ret_ptr (get k r), r)
  | call_del k => (ret_void, del k r)
  end.
End machine_invariants.

(** ** The order in which threads got the mutex, and its replay *)

Section machine_order.
Context `{Countable key_t}.

(** Thread [i] is about to take the mutex. *)
Definition acquires (i : tid) (c : config key_t) : bool :=
  match pool c !! i with
  | Some th => match th_pc th with at_entry => true | _ => false end
  | None => false
  end.

(** The threads of a schedule in the order in which they took the mutex. *)
Fixpoint lock_order (sched : list tid) (c : config key_t) : list tid :=
  match sched with
  | [] => []
  | i :: sched' =>
      match step i c with
      | Some c' => (if acquires i c then [i] else []) ++ lock_order sched' c'
      | None => []
      end
  end.

(** The calls of the threads in [order], run one after the other as whole
    method calls: the manager at the end and what each call returned. *)
Fixpoint replay (order : list tid) (cs : list (call key_t)) (r : _base_mgr key_t)
  : _base_mgr key_t * list (tid * result) :=
  match order with
  | [] => (r, [])
  | i :: order' =>
      match cs !! i with
      | Some cl =>
          let r' := (outcome cl r).2 in
          ((replay order' cs r').1, (i, (outcome cl r).1) :: (replay order' cs r').2)
      | None => replay order' cs r
      end
  end.

(** How far the thread inside a body has come, measured against the
    manager [rp] it found when it took the mutex. *)
Definition in_flight (rp : _base_mgr key_t) (data : gmap key_t val_pt)
    (th : thread key_t) : Prop :=
  match th_pc th, th_call th with
  | at_find, (call_add _ _ | call_get _) => data = m_data rp
  | at_test it, (call_add k _ | call_get k) =>
      data = m_data rp /\ it = m_data rp !! k
  | at_insert, call_add k _ => data = m_data rp /\ m_data rp !! k = None
  | at_erase, call_del _ => data = m_data rp
  | at_return res, cl =>
      res = (outcome cl rp).1 /\ data = m_data (outcome cl rp).2
  | _, _ => False
  end.

(** A thread outside the bodies: it has returned what the replay says, or
    it has not started. *)
Definition settled (o : list tid) (log : list (tid * result)) (i : tid)
    (th : thread key_t) : Prop :=
  ((i ∈ o) /\ exists res, th_pc th = finished res /\ ((i, res) ∈ log)) \/
  ((i ∉ o) /\ th_pc th = at_entry).

(** The state of the machine after the threads in [o] took the mutex, in
    that order, on the manager [r]. *)
Definition replayed (r : _base_mgr key_t) (cs : list (call key_t))
    (o : list tid) (c : config key_t) : Prop :=
  map th_call (pool c) = cs /\ NoDup o /\
  (forall i, i ∈ o -> i < length cs) /\
  ((obj c = (replay o cs r).1 /\
    forall i th, pool c !! i = Some th -> settled o (replay o cs r).2 i th) \/
   (exists o' j thj,
      o = o' ++ [j] /\ m_mtx (obj c) = Some (j, 1) /\ pool c !! j = Some thj /\
      in_flight (replay o' cs r).1 (m_data (obj c)) thj /\
      forall i th, i ≠ j -> pool c !! i = Some th ->
        settled o (replay o' cs r).2 i th)).
End machine_order.

(* ================================================================== *)
(** * _bai<val_t>: the capability interface of an entity type          *)
(* ================================================================== *)

(** [typedef std::string db_serial_t;  typedef std::string io_serial_t;] *)
Definition db_serial_t := string.
Definition io_serial_t := string.

(** The eight hooks of [_bai] that act on the runtime index, the database
    and the cache. *)
Module hook.
Inductive t :=
| add_index | del_index
| db_update | db_insert | db_delete
| cache_update | cache_insert | cache_remove.
End hook.

(** Every member of [_bai<val_t>] is pure virtual: the header gives the
    signatures only and an entity type supplies the bodies.  A body may
    change the entity and whatever the entity type keeps outside of it
    (its indices, its database, its cache), of type [ext]. *)
Class _bai (val_t key_t db_key_t cache_key_t ext : Type) := {
  key : val_t -> key_t;
  db_key : val_t -> db_key_t;
  cache_key : val_t -> cache_key_t;
  db_serialize : val_t -> db_serial_t;
  io_serialize : val_t -> io_serial_t;
  add_index : val_t -> ext -> val_t * ext;
  del_index : val_t -> ext -> val_t * ext;
  db_update : val_t -> ext -> bool * (val_t * ext);
  db_insert : val_t -> ext -> bool * (val_t * ext);
  db_delete : val_t -> ext -> bool * (val_t * ext);
  cache_update : val_t -> ext -> bool * (val_t * ext);
  cache_insert : val_t -> ext -> bool * (val_t * ext);
  cache_remove : val_t -> ext -> bool * (val_t * ext)
}.

(** What [new val_t] constructs: the entity type's default constructor. *)
Class default_constructible (val_t : Type) := default_ctor : val_t.

(* ================================================================== *)
(** * The process: objects, managers, and the record of hook calls     *)
(* ================================================================== *)

Section process.
Context `{Countable key_t} {val_t ext : Type}.

Record world := mk_world {
  objs : gmap addr val_t;                 (* entities made by new val_t      *)
  mgrs : gmap addr (_base_mgr key_t);     (* managers made by new _base_mgr  *)
  m_instance : shared_ptr;                (* static instance_t m_instance;   *)
  outside : ext;                          (* indices, database, cache        *)
  calls : list (hook.t * addr)            (* hooks invoked so far, in order  *)
}.

(** The address [new] hands out: one that holds no object yet. *)
Definition new_addr (w : world) : addr := fresh (dom (objs w) ∪ dom (mgrs w)).

(** [std::shared_ptr<val_t> ret(new val_t); return ret;]
    This is the body of both [_base<val_t>::new_instance] and
    [_base_assigned<val_t,_flag>::new_instance]. *)
Definition new_instance `{!default_constructible val_t} (w : world)
  : val_pt * world :=
  let a := new_addr w in
  (Some a,
   mk_world (<[a := default_ctor]> (objs w)) (mgrs w)
            (m_instance w) (outside w) (calls w)).

(** [instance_t ret(new _base_mgr<val_t>()); return ret;]
    The static member [m_instance] is neither read nor written. *)
Definition instance (w : world) : instance_t * world :=
  let a := new_addr w in
  (Some a,
   mk_world (objs w) (<[a := _base_mgr_ctor]> (mgrs w))
            (m_instance w) (outside w) (calls w)).

(** [h->method(...)]: the method runs on the manager [h] points to and
    the manager is updated in place.  [None]: [h] is empty or dangling,
    and the call has no defined behaviour. *)
Definition through {A : Type} (h : instance_t)
    (method : _base_mgr key_t -> A * _base_mgr key_t) (w : world)
  : option (A * world) :=
  match h with
  | Some a =>
      match mgrs w !! a with
      | Some r =>
          let '(x, r') := method r in
          Some (x, mk_world (objs w) (<[a := r']> (mgrs w))
                            (m_instance w) (outside w) (calls w))
      | None => None
      end
  | None => None
  end.

Definition ptr_add (h : instance_t) (k : key_t) (v : val_pt) :=
  through h (add k v).
Definition ptr_get (h : instance_t) (k : key_t) :=
  through h (fun r => (get k r, r)).
Definition ptr_del (h : instance_t) (k : key_t) :=
  through h (fun r => (tt, del k r)).

(** [p->hook()] for one of the [bool] hooks of [_bai]: the entity type's
    body runs on the entity and on [outside], and the call is recorded. *)
Definition invoke (hk : hook.t)
    (body : val_t -> ext -> bool * (val_t * ext)) (p : val_pt) (w : world)
  : option (bool * world) :=
  match p with
  | Some a =>
      match objs w !! a with
      | Some o =>
          let '(b, (o', x')) := body o (outside w) in
          Some (b, mk_world (<[a := o']> (objs w)) (mgrs w)
                            (m_instance w) x' (calls w ++ [(hk, a)]))
      | None => None
      end
  | None => None
  end.

(** [p->hook()] for [add_index] and [del_index], which return [void]. *)
Definition invoke_void (hk : hook.t)
    (body : val_t -> ext -> val_t * ext) (p : val_pt) (w : world)
  : option world :=
  match invoke hk (fun o x => (true, body o x)) p w with
  | Some (_, w') => Some w'
  | None => None
  end.

(** The statement with which the header's [test()] creates and registers
    an entity: [orm_ins->add (k, val_t::new_instance());] *)
Definition create `{!default_constructible val_t}
    (orm_ins : instance_t) (k : key_t) (w : world) : option (bool * world) :=
  let '(v, w1) := new_instance w in
  ptr_add orm_ins k v w1.

(** The process before anything was allocated. *)
Definition start (x : ext) : world := mk_world ∅ ∅ nullptr x [].
End process.

Arguments world key_t {_ _} val_t ext.

(** [_base_assigned<val_t,_flag>::identifier ()]: [return _flag;] *)
Definition identifier (_flag : string) : string := _flag.

(* ================================================================== *)
(** * namespace test: the entity type the header instantiates          *)
(* ================================================================== *)

Module test.
(** [const char identifier[] = "name";] *)
Definition identifier : string := "name"%string.

(** [class base_test]: [typedef int key_t;] and one field,
    [int m_val {0};].  The value of an [int] is kept as an integer;
    [int_add] below is the addition of two [int]s. *)
Abbreviation key_t := Z.
Record base_test := mk_base_test { m_val : Z }.

#[global] Instance base_test_ctor : default_constructible base_test :=
  {| m_val := 0 |}.

(** [int val () { return m_val; }] *)
Definition val (o : base_test) : Z := m_val o.

(** [void val (int v) { m_val = v; }] *)
Definition val_set (v : Z) (o : base_test) : base_test := {| m_val := v |}.

(** [class orm_test : public _base_mgr<base_test> {};] runs in a process
    whose entities are [base_test] objects; [base_test] does not derive
    from [_bai], so nothing lives outside the objects. *)
Definition process := world key_t base_test unit.

(** What [test()] writes to [std::cout], one item per [<<]. *)
Inductive item :=
| out_int (z : Z)
| out_str (s : string)
| out_endl.

(** How a run of [test()] ends. *)
Inductive ending :=
| returns            (* the closing brace is reached            *)
| assertion_failed   (* [assert] fails and the process aborts   *)
| undefined.         (* an empty or dangling handle is used     *)

(** A run in progress: the process and the output so far, or the way the
    run ended early. *)
Definition run_state : Type := (process * list item) + (ending * list item).

Definition and_then (s : run_state)
    (f : process -> list item -> run_state) : run_state :=
  match s with
  | inl (w, out) => f w out
  | inr e => inr e
  end.

(** [p->val()] *)
Definition ptr_val (p : val_pt) (w : process) : option Z :=
  match p with
  | Some a => val <$> objs w !! a
  | None => None
  end.

(** [p->val(v)] *)
Definition ptr_val_set (p : val_pt) (v : Z) (w : process) : option process :=
  match p with
  | Some a =>
      match objs w !! a with
      | Some o =>
          Some (mk_world (<[a := val_set v o]> (objs w)) (mgrs w)
                         (m_instance w) (outside w) (calls w))
      | None => None
      end
  | None => None
  end.

(** [int] has 32 bits.  [a + b] on two [int]s: the mathematical sum when
    it fits; beyond [INT_MAX] or below [INT_MIN] the language leaves the
    result open, and the build of this header (no optimisation) wraps
    around modulo 2^32, which is what [int_add] gives. *)
Definition INT_MIN : Z := (- 2 ^ 31)%Z.
Definition INT_MAX : Z := (2 ^ 31 - 1)%Z.

Definition int_wrap (z : Z) : Z := ((z - INT_MIN) mod 2 ^ 32 + INT_MIN)%Z.

Definition int_add (a b : Z) : Z := int_wrap (a + b).

(** The body of [for (int i = 0; i < 3; ++i) { ... }]. *)
Definition loop_body (orm_ins : instance_t) (i : Z) (w : process)
    (out : list item) : run_state :=
  match ptr_get orm_ins i w with                 (* auto ins = orm_ins->get(i); *)
  | None => inr (undefined, out)
  | Some (ins, w) =>
      let out := out ++ [out_int i; out_str " :::::::"; out_endl] in
      match ins with
      | None => inr (assertion_failed, out)      (* assert(ins != nullptr);     *)
      | Some _ =>
          match ptr_val ins w with
          | None => inr (undefined, out)
          | Some v =>
              let out := out ++ [out_int v; out_endl] in
              match ptr_val_set ins (int_add v 100) w with
              | None => inr (undefined, out)
              | Some w =>
                  match ptr_val ins w with
                  | None => inr (undefined, out)
                  | Some v' => inl (w, out ++ [out_int v'; out_endl])
                  end
              end
          end
      end
  end.

(** [void test ()] *)
Definition test (w : process) : run_state :=
  let '(op, w) := new_instance w in              (* auto op = new_instance ();  *)
  match ptr_val_set op 100%Z w with              (* op->val(100);               *)
  | None => inr (undefined, [])
  | Some w =>
      let '(orm_ins, w) := instance w in         (* orm_test::instance ()       *)
      match create orm_ins 0%Z w with            (* add (0, new_instance())     *)
      | None => inr (undefined, [])
      | Some (_, w) =>
          match ptr_add orm_ins 1%Z op w with    (* orm_ins->add (1, op);       *)
          | None => inr (undefined, [])
          | Some (_, w) =>
              let s0 : run_state := inl (w, []) in
              let s1 := and_then s0 (loop_body orm_ins 0%Z) in
              let s2 := and_then s1 (loop_body orm_ins 1%Z) in
              let s3 := and_then s2 (loop_body orm_ins 2%Z) in
              and_then s3 (fun _ out => inr (returns, out))
          end
      end
  end.
End test.

(* ================================================================== *)
(** * Two further entity types, used to exercise the templates         *)
(* ================================================================== *)

Module sample.
(** An entity type whose field has a default member initializer other
    than zero: [class preset { int m_val {7}; };] *)
Record preset := mk_preset { p_val : Z }.

#[global] Instance preset_ctor : default_constructible preset :=
  {| p_val := 7 |}.

(** An entity type that implements [_bai]: an account identified by an
    integer, with a database that may be offline, a cache and a secondary
    index, each holding the identifiers written to it. *)
Record account := mk_account { acct_id : Z }.

Record services := mk_services {
  db_online : bool;
  db_rows : gset Z;
  cache_rows : gset Z;
  index : gset Z
}.

#[global] Instance account_ctor : default_constructible account :=
  {| acct_id := 0 |}.

Definition db_write (f : gset Z -> gset Z) (o : account) (x : services)
  : bool * (account * services) :=
  if db_online x
  then (true, (o, mk_services true (f (db_rows x)) (cache_rows x) (index x)))
  else (false, (o, x)).

Definition cache_write (f : gset Z -> gset Z) (o : account) (x : services)
  : bool * (account * services) :=
  (true, (o, mk_services (db_online x) (db_rows x) (f (cache_rows x)) (index x))).

Definition index_write (f : gset Z -> gset Z) (o : account) (x : services)
  : account * services :=
  (o, mk_services (db_online x) (db_rows x) (cache_rows x) (f (index x))).

#[global] Instance account_bai : _bai account Z Z Z services := {|
  key := acct_id;
  db_key := acct_id;
  cache_key := acct_id;
  db_serialize := fun _ => ""%string;
  io_serialize := fun _ => ""%string;
  add_index := fun o => index_write (fun s => {[acct_id o]} ∪ s) o;
  del_index := fun o => index_write (fun s => s ∖ {[acct_id o]}) o;
  db_update := fun o => db_write (fun s => s) o;
  db_insert := fun o => db_write (fun s => {[acct_id o]} ∪ s) o;
  db_delete := fun o => db_write (fun s => s ∖ {[acct_id o]}) o;
  cache_update := fun o => cache_write (fun s => s) o;
  cache_insert := fun o => cache_write (fun s => {[acct_id o]} ∪ s) o;
  cache_remove := fun o => cache_write (fun s => s ∖ {[acct_id o]}) o
|}.

(** Nothing stored anywhere, and the database cannot be reached. *)
Definition offline : services := mk_services false ∅ ∅ ∅.
Definition online : services := mk_services true ∅ ∅ ∅.
End sample.

(* ================================================================== *)
(** * Properties of the manager's methods                              *)
(* ================================================================== *)

Section base_mgr_facts.
Context `{Countable key_t}.
Implicit Types (r : _base_mgr key_t) (k : key_t) (v e : val_pt).

Lemma mgr_eq r r' : m_mtx r = m_mtx r' -> m_data r = m_data r' -> r = r'.
Proof. destruct r, r'; simpl; congruence. Qed.

Lemma insert_absent k v (m : gmap key_t val_pt) :
  m !! k = None -> std_map.insert k v m = <[k := v]> m.
Proof. intros Hk. unfold std_map.insert. by rewrite Hk. Qed.

Lemma insert_present k v (m : gmap key_t val_pt) :
  is_Some (m !! k) -> std_map.insert k v m = m.
Proof. intros [x Hx]. unfold std_map.insert. by rewrite Hx. Qed.

Lemma add_absent r k v :
  m_data r !! k = None ->
  add k v r = (true, mk_base_mgr (m_mtx r) (<[k := v]> (m_data r))).
Proof.
  intros Hk. unfold add, std_map.find. rewrite Hk.
  by rewrite insert_absent.
Qed.

Lemma add_present r k v :
  is_Some (m_data r !! k) -> add k v r = (false, r).
Proof. intros [x Hx]. unfold add, std_map.find. by rewrite Hx. Qed.

Lemma get_lookup r k : get k r = default nullptr (m_data r !! k).
Proof. unfold get, std_map.find. by destruct (m_data r !! k). Qed.

Lemma add_keeps_mutex r k v : m_mtx (add k v r).2 = m_mtx r.
Proof. unfold add. by destruct (std_map.find k (m_data r)). Qed.

(** add changes the mapping of no key but its own. *)
Lemma add_other r k k' v :
  k' ≠ k -> m_data (add k v r).2 !! k' = m_data r !! k'.
Proof.
  intros Hne. destruct (m_data r !! k) as [x|] eqn:Hk.
  - by rewrite add_present.
  - rewrite add_absent by done. simpl. by rewrite lookup_insert_ne.
Qed.

(** After add, the key is mapped: to what it was mapped before, or else
    to the handle just given. *)
Lemma add_lookup r k v :
  m_data (add k v r).2 !! k = Some (default v (m_data r !! k)).
Proof.
  destruct (m_data r !! k) as [x|] eqn:Hk.
  - by rewrite add_present.
  - rewrite add_absent by done. simpl. by rewrite lookup_insert_eq.
Qed.

Lemma del_lookup r k k' :
  m_data (del k r) !! k' = if decide (k = k') then None else m_data r !! k'.
Proof. unfold del, std_map.erase. simpl. apply lookup_delete. Qed.

(** C2: add on a key that is already present returns false and leaves the
    manager exactly as it was; get on that key still returns the handle
    that was mapped to it before the failed add. *)
Theorem add_collision r k e1 e2 :
  m_data r !! k = Some e1 ->
  add k e2 r = (false, r) /\ get k (add k e2 r).2 = e1.
Proof.
  intros Hk.
  assert (add k e2 r = (false, r)) as -> by (apply add_present; eauto).
  split; [done|]. cbn [snd]. by rewrite get_lookup, Hk.
Qed.

(** C3: from a manager that has neither k1 nor k2, with k1 ≠ k2, add(k1,e1)
    and then add(k2,e2) both return true, and afterwards get(k1) is e1 and
    get(k2) is e2. *)
Theorem add_two_keys r k1 k2 e1 e2 :
  k1 ≠ k2 ->
  m_data r !! k1 = None ->
  m_data r !! k2 = None ->
  let r1 := (add k1 e1 r).2 in
  let r2 := (add k2 e2 r1).2 in
  (add k1 e1 r).1 = true /\ (add k2 e2 r1).1 = true /\
  get k1 r2 = e1 /\ get k2 r2 = e2.
Proof.
  intros Hne H1 H2 r1 r2.
  assert (m_data r1 !! k2 = None) as H2'.
  { subst r1. by rewrite add_other. }
  subst r2. rewrite (add_absent r1 k2) by done.
  subst r1. rewrite (add_absent r k1) by done. simpl.
  rewrite !get_lookup. simpl.
  rewrite lookup_insert_ne, !lookup_insert_eq by done. done.
Qed.

(** C4: whatever the manager holds, add(k,e), then del(k), then get(k)
    gives the empty handle. *)
Theorem add_del_get r k e : get k (del k (add k e r).2) = nullptr.
Proof. rewrite get_lookup, del_lookup. by rewrite decide_True. Qed.

(** C5: del has no failure result.  On a key that is absent it leaves the
    manager exactly as it was; on any key it removes that key's entry and
    leaves the mapping of every other key as it was. *)
Theorem del_frame r k :
  (m_data r !! k = None -> del k r = r) /\
  m_data (del k r) !! k = None /\
  (forall k', k' ≠ k -> m_data (del k r) !! k' = m_data r !! k').
Proof.
  split; [|split].
  - intros Hk. apply mgr_eq; [done|]. simpl. by apply delete_id.
  - rewrite del_lookup. by rewrite decide_True.
  - intros k' Hne. rewrite del_lookup. by rewrite decide_False.
Qed.

(** C10: on a key that is absent, add of the empty handle returns true and
    stores it; get on that key then returns the empty handle, which is
    also what get returned while the key was absent. *)
Theorem add_null_handle r k :
  m_data r !! k = None ->
  (add k nullptr r).1 = true /\
  m_data (add k nullptr r).2 !! k = Some nullptr /\
  get k (add k nullptr r).2 = nullptr /\
  get k r = nullptr.
Proof.
  intros Hk. rewrite add_absent by done. cbn [fst snd].
  rewrite !get_lookup. cbn [m_data]. rewrite lookup_insert_eq, Hk. done.
Qed.
End base_mgr_facts.

Lemma add_collision_witness :
  let r := mk_base_mgr recursive_mutex.free {[ 0%Z := Some 5 ]} in
  m_data r !! 0%Z = Some (Some 5) /\
  (add 0%Z (Some 6) r = (false, r) /\ get 0%Z (add 0%Z (Some 6) r).2 = Some 5).
Proof.
  intros r. split; [reflexivity|].
  apply (add_collision r 0%Z (Some 5) (Some 6)). reflexivity.
Defined.

Lemma add_two_keys_witness :
  let r := mk_base_mgr recursive_mutex.free {[ 7%Z := Some 1 ]} in
  let r1 := (add 0%Z (Some 2) r).2 in
  let r2 := (add 1%Z (Some 3) r1).2 in
  (0%Z ≠ 1%Z /\ m_data r !! 0%Z = None /\ m_data r !! 1%Z = None) /\
  (add 0%Z (Some 2) r).1 = true /\ (add 1%Z (Some 3) r1).1 = true /\
  get 0%Z r2 = Some 2 /\ get 1%Z r2 = Some 3.
Proof.
  intros r r1 r2. split; [repeat split; done|].
  apply (add_two_keys r 0%Z 1%Z (Some 2) (Some 3)); done.
Defined.

Lemma del_frame_witness :
  let r := mk_base_mgr recursive_mutex.free {[ 0%Z := Some 5 ]} in
  (m_data r !! 1%Z = None /\ del 1%Z r = r) /\
  m_data (del 0%Z r) !! 0%Z = None /\
  (1%Z ≠ 0%Z /\ m_data (del 1%Z r) !! 0%Z = m_data r !! 0%Z).
Proof.
  intros r.
  destruct (del_frame r 1%Z) as (Habsent & _ & Hothers).
  destruct (del_frame r 0%Z) as (_ & Hgone & _).
  split; [split; [reflexivity|apply Habsent; reflexivity]|].
  split; [exact Hgone|]. split; [done|]. apply Hothers. done.
Defined.

Lemma add_null_handle_witness :
  let r := mk_base_mgr recursive_mutex.free {[ 0%Z := Some 5 ]} in
  m_data r !! 1%Z = None /\
  (add 1%Z nullptr r).1 = true /\
  m_data (add 1%Z nullptr r).2 !! 1%Z = Some nullptr /\
  get 1%Z (add 1%Z nullptr r).2 = nullptr /\
  get 1%Z r = nullptr.
Proof.
  intros r. split; [reflexivity|].
  apply (add_null_handle r 1%Z). reflexivity.
Defined.

(* ================================================================== *)
(** * Properties of the factories, of instance() and of the hooks      *)
(* ================================================================== *)

Section process_facts.
Context `{Countable key_t} {val_t ext : Type}.
Implicit Types (w : world key_t val_t ext) (k : key_t) (e v : val_pt).

Lemma new_addr_fresh w : objs w !! new_addr w = None /\ mgrs w !! new_addr w = None.
Proof.
  pose proof (is_fresh (dom (objs w) ∪ dom (mgrs w))) as Hf.
  fold (new_addr w) in Hf.
  rewrite not_elem_of_union, !not_elem_of_dom in Hf. done.
Qed.

Lemma through_Some {A} (a : addr) (method : _base_mgr key_t -> A * _base_mgr key_t)
    w r :
  mgrs w !! a = Some r ->
  through (Some a) method w =
    Some ((method r).1,
          mk_world (objs w) (<[a := (method r).2]> (mgrs w))
                   (m_instance w) (outside w) (calls w)).
Proof. intros Hr. unfold through. rewrite Hr. by destruct (method r). Qed.

Lemma through_inv {A} h (method : _base_mgr key_t -> A * _base_mgr key_t)
    w x w' :
  through h method w = Some (x, w') ->
  exists a r, h = Some a /\ mgrs w !! a = Some r /\ x = (method r).1 /\
    w' = mk_world (objs w) (<[a := (method r).2]> (mgrs w))
                  (m_instance w) (outside w) (calls w).
Proof.
  destruct h as [a|]; [|done]. unfold through.
  destruct (mgrs w !! a) as [r|] eqn:Hr; [|done].
  destruct (method r) as [y r'] eqn:Hm. intros [= <- <-].
  exists a, r. by rewrite Hm.
Qed.

(** A method of the manager called through a handle touches that manager
    only: the record of hook calls, the entities, what lies outside them
    and the static member are as before. *)
Lemma through_frame {A} h (method : _base_mgr key_t -> A * _base_mgr key_t)
    w x w' :
  through h method w = Some (x, w') ->
  calls w' = calls w /\ outside w' = outside w /\ objs w' = objs w /\
  m_instance w' = m_instance w.
Proof. intros Hm. by apply through_inv in Hm as (a & r & _ & _ & _ & ->). Qed.

(** A hook that is invoked leaves its mark in the record of calls. *)
Lemma invoke_recorded hk body (a : addr) w b w' :
  invoke hk body (Some a) w = Some (b, w') -> calls w' = calls w ++ [(hk, a)].
Proof.
  unfold invoke. destruct (objs w !! a) as [o|]; [|done].
  destruct (body o (outside w)) as [b' [o' x']]. by intros [= <- <-].
Qed.

(** No operation of the process removes an entity: an object that
    new_instance returned stays in the store. *)
Lemma instance_keeps_objs w : objs (instance w).2 = objs w.
Proof. done. Qed.

Lemma through_keeps_objs {A} h (method : _base_mgr key_t -> A * _base_mgr key_t)
    w x w' :
  through h method w = Some (x, w') -> objs w' = objs w.
Proof. intros Hm. by apply through_inv in Hm as (a & r & _ & _ & _ & ->). Qed.

Lemma invoke_keeps_objs hk body p w b w' (a : addr) :
  invoke hk body p w = Some (b, w') ->
  is_Some (objs w !! a) -> is_Some (objs w' !! a).
Proof.
  unfold invoke. destruct p as [a'|]; [|done].
  destruct (objs w !! a') as [o|] eqn:Ho; [|done].
  destruct (body o (outside w)) as [b' [o' x']]. intros [= <- <-] Ha.
  cbn [objs]. destruct (decide (a' = a)) as [->|Hne].
  - rewrite lookup_insert_eq. eauto.
  - by rewrite lookup_insert_ne.
Qed.

(** Outcome for C1: two calls of instance() build two managers.  The
    handles differ, and an entry added through the first handle is not
    there for get through the second. *)
Theorem instance_twice w k e :
  let h1 := (instance w).1 in
  let w1 := (instance w).2 in
  let h2 := (instance w1).1 in
  let w2 := (instance w1).2 in
  h1 ≠ h2 /\
  exists w3 w4,
    ptr_add h1 k e w2 = Some (true, w3) /\
    ptr_get h2 k w3 = Some (nullptr, w4).
Proof.
  intros h1 w1 h2 w2.
  destruct (new_addr_fresh w1) as [_ Hf1].
  set (a1 := new_addr w) in *. set (a2 := new_addr w1) in *.
  assert (a1 ≠ a2) as Hne.
  { intros Heq. subst w1. cbn [instance snd mgrs] in Hf1. fold a1 in Hf1.
    fold a2 in Hf1. rewrite <- Heq, lookup_insert_eq in Hf1. done. }
  split; [subst h1 h2; cbn [instance fst]; fold a1; fold a2; congruence|].
  assert (mgrs w2 !! a1 = Some _base_mgr_ctor) as Hm1.
  { subst w2 w1. cbn [instance snd mgrs]. fold a1. fold a2.
    rewrite lookup_insert_ne, lookup_insert_eq by done. done. }
  assert (get k _base_mgr_ctor = nullptr) as Hget.
  { rewrite get_lookup. cbn [_base_mgr_ctor m_data]. by rewrite lookup_empty. }
  assert ((add k e _base_mgr_ctor).1 = true) as Hadd.
  { rewrite add_absent; [done|]. cbn [_base_mgr_ctor m_data]. apply lookup_empty. }
  subst h1 h2. cbn [instance fst]. fold a1. fold a2. unfold ptr_add, ptr_get.
  rewrite (through_Some _ _ _ _ Hm1), Hadd.
  eexists. eexists. split; [reflexivity|].
  erewrite through_Some.
  - cbn [fst]. rewrite Hget. reflexivity.
  - cbn [mgrs]. rewrite lookup_insert_ne by done.
    subst w2. cbn [instance snd mgrs]. fold a2. by rewrite lookup_insert_eq.
Qed.
(** C6, as the code has it: a call of add through a manager handle
    stores the handle under the key when the key is absent, and does
    nothing else.  It returns true exactly when the key was absent; then
    the manager maps the key to the handle given, so that get returns it,
    and every other key is as before; when the key was present no manager
    changes at all.  No hook is invoked: the record of hook calls, the
    entities and everything outside them are as before the call, and so
    is every other manager. *)
Theorem add_invokes_nothing w h k e b w' :
  ptr_add h k e w = Some (b, w') ->
  calls w' = calls w /\ outside w' = outside w /\ objs w' = objs w /\
  exists a r, h = Some a /\ mgrs w !! a = Some r /\
    b = (add k e r).1 /\ mgrs w' = <[a := (add k e r).2]> (mgrs w) /\
    (b = true <-> m_data r !! k = None) /\
    (m_data r !! k = None ->
       exists r', mgrs w' !! a = Some r' /\
         m_data r' = <[k := e]> (m_data r) /\ get k r' = e /\
         (forall k', k' ≠ k -> get k' r' = get k' r)) /\
    (is_Some (m_data r !! k) -> mgrs w' = mgrs w) /\
    (forall a', a' ≠ a -> mgrs w' !! a' = mgrs w !! a').
Proof.
  intros Hadd. destruct (through_frame _ _ _ _ _ Hadd) as (Hc & Ho & Hobjs & _).
  apply through_inv in Hadd as (a & r & -> & Hr & -> & ->).
  repeat split; try done. exists a, r. cbn [mgrs].
  split; [done|]. split; [done|]. split; [done|]. split; [done|].
  split; [|split; [|split]].
  - destruct (m_data r !! k) as [x|] eqn:Hk.
    + rewrite add_present by eauto. done.
    + rewrite add_absent by done. done.
  - intros Hk. rewrite add_absent by done. cbn [snd].
    eexists. split; [apply lookup_insert_eq|]. cbn [m_data]. split; [done|].
    split.
    + rewrite get_lookup. cbn [m_data]. by rewrite lookup_insert_eq.
    + intros k' Hne. rewrite !get_lookup. cbn [m_data].
      by rewrite lookup_insert_ne.
  - intros Hk. rewrite add_present by done. cbn [snd]. by apply insert_id.
  - intros a' Hne. by apply lookup_insert_ne.
Qed.

Context `{!default_constructible val_t}.

(** C7, as the code has it: the create statement (new_instance, then add)
    invokes no hook at all, so in particular neither cache_insert nor
    add_index, and it leaves everything outside the entities as it was.
    Its result is decided by the key alone: true exactly when the key was
    absent from the manager. *)
Theorem create_invokes_nothing w h k b w' :
  create h k w = Some (b, w') ->
  calls w' = calls w /\ outside w' = outside w /\
  exists a r, h = Some a /\ mgrs w !! a = Some r /\
    b = bool_decide (m_data r !! k = None).
Proof.
  unfold create. cbn [new_instance]. intros Hadd.
  destruct (through_frame _ _ _ _ _ Hadd) as (Hc & Ho & _).
  apply through_inv in Hadd as (a & r & -> & Hr & -> & _).
  cbn [calls outside mgrs] in *. repeat split; try done.
  exists a, r. repeat split; try done.
  destruct (m_data r !! k) as [x|] eqn:Hk.
  - rewrite add_present by eauto. by rewrite bool_decide_false.
  - rewrite add_absent by done. by rewrite bool_decide_true.
Qed.

Lemma new_instance_keeps_objs w (a : addr) :
  is_Some (objs w !! a) -> is_Some (objs (new_instance w).2 !! a).
Proof.
  intros Ha. cbn [new_instance snd objs].
  destruct (new_addr_fresh w) as [Hf _].
  rewrite lookup_insert_ne; [done|]. intros <-. rewrite Hf in Ha.
  by destruct Ha.
Qed.

(** C8, as the code has it: new_instance always returns a non-empty handle
    to an object at an address that held nothing before; the object is
    the one the entity type's default constructor builds; every other
    object and every manager is untouched; as long as the object is
    there, no later call returns the same handle; and the handle is of
    the type the manager stores (add then get gives it back). *)
Theorem new_instance_fresh w :
  exists a,
    (new_instance w).1 = Some a /\
    objs w !! a = None /\ mgrs w !! a = None /\
    objs (new_instance w).2 !! a = Some default_ctor /\
    (forall a', a' ≠ a -> objs (new_instance w).2 !! a' = objs w !! a') /\
    mgrs (new_instance w).2 = mgrs w /\
    calls (new_instance w).2 = calls w /\
    (forall w2, is_Some (objs w2 !! a) -> (new_instance w2).1 ≠ Some a) /\
    (forall k, get k (add k (new_instance w).1 (_base_mgr_ctor (key_t := key_t))).2
               = (new_instance w).1).
Proof.
  exists (new_addr w). destruct (new_addr_fresh w) as [Ho Hm].
  cbn [new_instance fst snd objs mgrs calls].
  repeat split; try done.
  - by rewrite lookup_insert_eq.
  - intros a' Hne. by rewrite lookup_insert_ne.
  - intros w2 [o Hin] [= Heq]. destruct (new_addr_fresh w2) as [Ho2 _].
    rewrite Heq in Ho2. congruence.
  - intros k. rewrite get_lookup, add_lookup.
    cbn [_base_mgr_ctor m_data]. by rewrite lookup_empty.
Qed.
End process_facts.

(** ** The templates at the three entity types *)

(** C6 fails on the code: the database is online, an account is created
    and add registers it under key 0 with result true, and yet no hook was
    invoked: the record of calls is empty and the index, the database and
    the cache hold nothing. *)
Lemma add_fires_no_hook :
  let w0 : world Z sample.account sample.services := start sample.online in
  let e := (new_instance w0).1 in
  let w1 := (new_instance w0).2 in
  let h := (instance w1).1 in
  let w2 := (instance w1).2 in
  exists w3,
    ptr_add h 0%Z e w2 = Some (true, w3) /\
    ptr_get h 0%Z w3 = Some (e, w3) /\
    e = Some 0 /\
    calls w3 = [] /\
    sample.index (outside w3) = ∅ /\
    sample.db_rows (outside w3) = ∅ /\
    sample.cache_rows (outside w3) = ∅.
Proof. vm_compute. eexists. repeat split. Qed.

Lemma add_invokes_nothing_witness :
  let w0 : world Z sample.account sample.services := start sample.online in
  let e := (new_instance w0).1 in
  let w1 := (new_instance w0).2 in
  let h := (instance w1).1 in
  let w2 := (instance w1).2 in
  exists w3,
    ptr_add h 0%Z e w2 = Some (true, w3) /\
    (calls w3 = calls w2 /\ outside w3 = outside w2 /\ objs w3 = objs w2 /\
     exists a r, h = Some a /\ mgrs w2 !! a = Some r /\
       true = (add 0%Z e r).1 /\ mgrs w3 = <[a := (add 0%Z e r).2]> (mgrs w2) /\
       (m_data r !! 0%Z = None /\
        exists r', mgrs w3 !! a = Some r' /\
          m_data r' = <[0%Z := e]> (m_data r) /\ get 0%Z r' = e) /\
       (0 ≠ a /\ mgrs w3 !! 0 = mgrs w2 !! 0)).
Proof.
  intros w0 e w1 h w2. eexists. split; [reflexivity|].
  destruct (add_invokes_nothing w2 h 0%Z e true _ eq_refl)
    as (Hc & Ho & Hobjs & a & r & Hh & Hr & Hb & Hm & Hiff & Habsent & _ & Hothers).
  split; [exact Hc|]. split; [exact Ho|]. split; [exact Hobjs|].
  exists a, r. split; [exact Hh|]. split; [exact Hr|]. split; [exact Hb|].
  split; [exact Hm|].
  assert (m_data r !! 0%Z = None) as Hk by (by apply Hiff).
  assert (a = 1) as Ha by (vm_compute in Hh; congruence).
  split.
  - split; [exact Hk|]. destruct (Habsent Hk) as (r' & Hr' & Hdata & Hget & _).
    exists r'. split; [exact Hr'|]. split; [exact Hdata|exact Hget].
  - split; [rewrite Ha; done|]. apply Hothers. rewrite Ha. done.
Defined.

(** C7 fails on the code: with the database offline, db_insert of the
    created account returns false, and the create statement still returns
    true and registers the account under key 0. *)
Lemma create_ignores_db_insert :
  let w0 : world Z sample.account sample.services := start sample.offline in
  let h := (instance w0).1 in
  let w1 := (instance w0).2 in
  exists w2 a o,
    create h 0%Z w1 = Some (true, w2) /\
    ptr_get h 0%Z w2 = Some (Some a, w2) /\
    objs w2 !! a = Some o /\
    (db_insert o (outside w2)).1 = false /\
    calls w2 = [].
Proof.
  vm_compute. eexists. exists 1, (sample.mk_account 0). repeat split.
Qed.

Lemma create_invokes_nothing_witness :
  let w0 : world Z sample.account sample.services := start sample.offline in
  let h := (instance w0).1 in
  let w1 := (instance w0).2 in
  exists w2,
    create h 0%Z w1 = Some (true, w2) /\
    (calls w2 = calls w1 /\ outside w2 = outside w1 /\
     exists a r, h = Some a /\ mgrs w1 !! a = Some r /\
       true = bool_decide (m_data r !! 0%Z = None)).
Proof.
  intros w0 h w1. eexists. split; [reflexivity|].
  apply (create_invokes_nothing w1 h 0%Z true). reflexivity.
Defined.

(** C8 fails on the code for an entity type whose default constructor does
    not produce zeros: the object new_instance returns for [preset] has its
    field at 7, the value of its default member initializer. *)
Lemma new_instance_not_zero :
  let w0 : world Z sample.preset unit := start tt in
  exists a o,
    (new_instance w0).1 = Some a /\
    objs (new_instance w0).2 !! a = Some o /\
    sample.p_val o = 7%Z /\
    o ≠ sample.mk_preset 0.
Proof.
  exists 0, (sample.mk_preset 7). repeat split; try reflexivity. discriminate.
Qed.

Lemma new_instance_fresh_witness :
  let w0 : test.process := start tt in
  let w := (new_instance w0).2 in
  let w2 := (new_instance w).2 in
  exists a,
    (new_instance w).1 = Some a /\
    objs (new_instance w).2 !! a = Some default_ctor /\
    (0 ≠ a /\ objs (new_instance w).2 !! 0 = objs w !! 0) /\
    (is_Some (objs w2 !! a) /\ (new_instance w2).1 ≠ Some a).
Proof.
  intros w0 w w2.
  destruct (new_instance_fresh w) as (a & Ha & _ & _ & Hnew & Hothers & _ & _ & Hlater & _).
  exists a. split; [exact Ha|]. split; [exact Hnew|].
  assert (a = 1) as -> by (vm_compute in Ha; congruence).
  split; [split; [done|apply Hothers; done]|].
  assert (is_Some (objs w2 !! 1)) as Hlive by (eexists; reflexivity).
  split; [exact Hlive|apply Hlater, Hlive].
Defined.

(** For the header's own entity type the default constructor does give
    zero: [int m_val {0};]. *)
Lemma new_instance_base_test :
  let w0 : test.process := start tt in
  exists a o,
    (new_instance w0).1 = Some a /\
    objs (new_instance w0).2 !! a = Some o /\
    test.val o = 0%Z.
Proof. exists 0, (test.mk_base_test 0). repeat split. Qed.

(* ================================================================== *)
(** * Properties of the machine: the mutex serializes the bodies       *)
(* ================================================================== *)

Section machine_facts.
Context `{Countable key_t}.
Implicit Types (c : config key_t) (th : thread key_t) (r : _base_mgr key_t).
Implicit Types (i j : tid) (k : key_t) (sched : list tid).

Lemma lookup_updated {A} (l : list A) i j (x y z : A) :
  l !! i = Some x -> <[i := y]> l !! j = Some z ->
  (j = i /\ z = y) \/ (j ≠ i /\ l !! j = Some z).
Proof.
  intros Hi Hj. destruct (decide (j = i)) as [->|Hne].
  - left. rewrite list_lookup_insert_eq in Hj by eauto using lookup_lt_Some.
    split; congruence.
  - right. rewrite list_lookup_insert_ne in Hj by done. done.
Qed.

Lemma step_inv i c c' :
  step i c = Some c' ->
  exists th th' r', pool c !! i = Some th /\ exec i th (obj c) = Some (th', r') /\
    c' = mk_config r' (<[i := th']> (pool c)).
Proof.
  unfold step. destruct (pool c !! i) as [th|]; [|done].
  destruct (exec i th (obj c)) as [[th' r']|] eqn:Hexec; [|done].
  intros [= <-]. by exists th, th', r'.
Qed.

Ltac exec_cases Hexec :=
  match type of Hexec with
  | exec _ ?th ?r = Some _ =>
      unfold exec in Hexec; destruct th as [[?k ?v|?k|?k] [| |?it| | |?res|?res]];
      cbn [th_call th_pc body_start] in Hexec;
      try discriminate Hexec
  end.

Lemma exec_call i th r th' r' :
  exec i th r = Some (th', r') -> th_call th' = th_call th.
Proof.
  intros Hexec. exec_cases Hexec;
    try (destruct (recursive_mutex.lock i (m_mtx r)); [|discriminate Hexec]);
    by injection Hexec as <- <-.
Qed.

(** A statement either takes the free mutex, or runs inside the body with
    the mutex held, or gives the mutex back on return. *)
Lemma exec_mutex i th r th' r' :
  exec i th r = Some (th', r') ->
  (in_section th = true <-> m_mtx r = Some (i, 1)) ->
  (m_mtx r = None \/ exists j, m_mtx r = Some (j, 1)) ->
  (in_section th = false /\ m_mtx r = None /\
     m_mtx r' = Some (i, 1) /\ in_section th' = true /\ m_data r' = m_data r) \/
  (in_section th = true /\ m_mtx r' = m_mtx r /\ in_section th' = true) \/
  (in_section th = true /\ m_mtx r' = None /\ in_section th' = false /\
     m_data r' = m_data r).
Proof.
  intros Hexec Hown Hmtx.
  assert (th_pc th = at_entry -> m_mtx r = None) as Hentry.
  { intros Hpc. destruct Hmtx as [|[j Hj]]; [done|].
    unfold exec in Hexec. rewrite Hpc, Hj in Hexec. cbn in Hexec.
    destruct (decide (j = i)) as [->|]; [|done].
    apply Hown in Hj. unfold in_section in Hj. by rewrite Hpc in Hj. }
  exec_cases Hexec;
    try (rewrite (Hentry eq_refl) in *; cbn in Hexec; injection Hexec as <- <-;
         left; by cbn);
    try (injection Hexec as <- <-; right; left; by cbn);
    try (destruct it; injection Hexec as <- <-; right; left; by cbn);
    try (injection Hexec as <- <-; right; right;
         cbn [in_section th_pc m_mtx m_data];
         destruct Hown as [Hown _]; rewrite (Hown eq_refl); by cbn).
Qed.

Lemma exec_placed i th r th' r' :
  exec i th r = Some (th', r') -> well_placed th'.
Proof.
  intros Hexec. exec_cases Hexec;
    try (destruct (recursive_mutex.lock i (m_mtx r)); [|discriminate Hexec]);
    try destruct it; by injection Hexec as <- <-.
Qed.

Lemma spawn_lookup r (cs : list (call key_t)) i th :
  pool (spawn r cs) !! i = Some th ->
  exists cl, cs !! i = Some cl /\ th = mk_thread cl at_entry.
Proof.
  cbn [spawn pool]. revert i. induction cs as [|cl cs IH]; intros [|i]; cbn;
    try done.
  - intros [= <-]. by exists cl.
  - apply IH.
Qed.

Lemma serialized_spawn r (cs : list (call key_t)) :
  m_mtx r = recursive_mutex.free -> serialized (spawn r cs).
Proof.
  intros Hfree. split.
  - intros i th Hth. apply spawn_lookup in Hth as (cl & _ & ->).
    cbn [spawn obj]. rewrite Hfree. by cbn.
  - by left.
  - intros i th Hth. apply spawn_lookup in Hth as (cl & _ & ->). by cbn.
Qed.

Lemma serialized_step i c c' :
  serialized c -> step i c = Some c' -> serialized c'.
Proof.
  intros [Hown Hmtx Hplaced] Hstep.
  apply step_inv in Hstep as (th & th' & r' & Hth & Hexec & ->).
  assert (is_Some (<[i := th']> (pool c) !! i)) as Hi.
  { rewrite list_lookup_insert_eq by eauto using lookup_lt_Some. eauto. }
  assert (m_mtx (obj c) = None \/ exists j, m_mtx (obj c) = Some (j, 1)) as Hmtx'.
  { destruct Hmtx as [|(j & Hj & _)]; eauto. }
  destruct (exec_mutex _ _ _ _ _ Hexec (Hown _ _ Hth) Hmtx')
    as [(Hout & Hfree & Hnew & Hin & _)|[(Hin & Hsame & Hin')|(Hin & Hnew & Hout & _)]];
    split; cbn [obj pool].
  - intros j thj Hj.
    destruct (lookup_updated _ _ _ _ _ _ Hth Hj) as [[-> ->]|[Hne Hj']].
    + by rewrite Hnew.
    + rewrite Hnew. pose proof (Hown _ _ Hj') as Hj''. rewrite Hfree in Hj''.
      split; [intros Hs; by apply Hj'' in Hs|]. intros [= ->]. done.
  - right. exists i. by rewrite Hnew.
  - intros j thj Hj.
    destruct (lookup_updated _ _ _ _ _ _ Hth Hj) as [[-> ->]|[Hne Hj']];
      eauto using exec_placed.
  - intros j thj Hj. rewrite Hsame.
    destruct (lookup_updated _ _ _ _ _ _ Hth Hj) as [[-> ->]|[Hne Hj']].
    + split; [intros _; by apply (Hown _ _ Hth)|done].
    + by apply Hown.
  - rewrite Hsame. destruct Hmtx as [|(j & Hj & Hsome)]; [by left|].
    right. exists j. split; [done|].
    apply lookup_lt_is_Some. rewrite length_insert.
    by apply lookup_lt_is_Some.
  - intros j thj Hj.
    destruct (lookup_updated _ _ _ _ _ _ Hth Hj) as [[-> ->]|[Hne Hj']];
      eauto using exec_placed.
  - intros j thj Hj. rewrite Hnew.
    destruct (lookup_updated _ _ _ _ _ _ Hth Hj) as [[-> ->]|[Hne Hj']].
    + by rewrite Hout.
    + pose proof (Hown _ _ Hj') as Hj''.
      apply (Hown _ _ Hth) in Hin. rewrite Hin in Hj''.
      split; [|done]. intros Hs. apply Hj'' in Hs. congruence.
  - by left.
  - intros j thj Hj.
    destruct (lookup_updated _ _ _ _ _ _ Hth Hj) as [[-> ->]|[Hne Hj']];
      eauto using exec_placed.
Qed.

Lemma run_app sched1 sched2 c :
  run (sched1 ++ sched2) c =
    match run sched1 c with Some c' => run sched2 c' | None => None end.
Proof.
  revert c. induction sched1 as [|i sched1 IH]; intros c; cbn; [done|].
  destruct (step i c); [apply IH|done].
Qed.

Lemma serialized_run sched c c' :
  serialized c -> run sched c = Some c' -> serialized c'.
Proof.
  revert c. induction sched as [|i sched IH]; intros c Hser; cbn.
  - by intros [= <-].
  - destruct (step i c) as [c1|] eqn:Hstep; [|done].
    eauto using serialized_step.
Qed.
(** At any moment at most one thread is inside a body of add, get or del. *)
Lemma mutual_exclusion c i j thi thj :
  serialized c ->
  pool c !! i = Some thi -> pool c !! j = Some thj ->
  in_section thi = true -> in_section thj = true -> i = j.
Proof.
  intros [Hown _ _] Hi Hj Hini Hinj.
  apply (Hown _ _ Hi) in Hini. apply (Hown _ _ Hj) in Hinj. congruence.
Qed.

(** Whatever the threads call (add, get or del) and however they are
    scheduled, the bodies never overlap. *)
Lemma calls_serialized r (cs : list (call key_t)) sched c i j thi thj :
  m_mtx r = recursive_mutex.free ->
  run sched (spawn r cs) = Some c ->
  pool c !! i = Some thi -> pool c !! j = Some thj ->
  in_section thi = true -> in_section thj = true -> i = j.
Proof.
  intros Hfree Hrun. apply mutual_exclusion.
  eapply serialized_run; [|exact Hrun]. by apply serialized_spawn.
Qed.

Lemma forallb_false {A} (f : A -> bool) (l : list A) :
  forallb f l = false -> exists i x, l !! i = Some x /\ f x = false.
Proof.
  induction l as [|x l IH]; cbn; [done|].
  destruct (f x) eqn:Hx; cbn.
  - intros Hl. destruct (IH Hl) as (i & y & Hy & Hfy). by exists (S i), y.
  - intros _. by exists 0, x.
Qed.

(** No deadlock: as long as some call has not returned, some thread can
    execute a statement. *)
Lemma progress c :
  serialized c -> all_returned c = false -> exists i c', step i c = Some c'.
Proof.
  intros [Hown Hmtx Hplaced] Hnot.
  assert (forall i th, pool c !! i = Some th -> is_Some (exec i th (obj c)) ->
            exists c', step i c = Some c') as Hstep.
  { intros i th Hth [[th' r'] Hexec]. unfold step. rewrite Hth, Hexec. eauto. }
  destruct Hmtx as [Hfree|(j & Hj & [th Hth])].
  - apply forallb_false in Hnot as (i & th & Hth & Hret).
    exists i. apply (Hstep i th Hth).
    pose proof (Hown _ _ Hth) as Hi. rewrite Hfree in Hi.
    destruct th as [cl p]. unfold exec. cbn [th_call th_pc].
    destruct p; try (by cbn in Hret); try (by destruct Hi as [Hi _]; cbn in Hi; specialize (Hi eq_refl)).
    rewrite Hfree. cbn. eauto.
  - exists j. apply (Hstep j th Hth).
    pose proof (proj2 (Hown _ _ Hth) Hj) as Hin.
    pose proof (Hplaced _ _ Hth) as Hwp.
    destruct th as [cl p]. unfold exec. cbn [th_call th_pc].
    destruct p, cl; cbn in Hin, Hwp; try done; eauto.
Qed.

Lemma sum_updated {A} (f : A -> nat) (l : list A) i (x y : A) :
  l !! i = Some x ->
  sum_list (map f (<[i := y]> l)) + f x = sum_list (map f l) + f y.
Proof.
  revert i. induction l as [|z l IH]; intros [|i]; simpl; try done.
  - intros [= ->]. lia.
  - intros Hi. specialize (IH _ Hi). lia.
Qed.

Lemma exec_remaining i th r th' r' :
  exec i th r = Some (th', r') -> remaining th' < remaining th.
Proof.
  intros Hexec. exec_cases Hexec;
    try (destruct (recursive_mutex.lock i (m_mtx r)); [|discriminate Hexec]);
    try destruct it; injection Hexec as <- <-; cbn; lia.
Qed.

Lemma step_work_left i c c' : step i c = Some c' -> work_left c' < work_left c.
Proof.
  intros Hstep. apply step_inv in Hstep as (th & th' & r' & Hth & Hexec & ->).
  unfold work_left. cbn [pool].
  pose proof (sum_updated remaining _ _ _ th' Hth).
  pose proof (exec_remaining _ _ _ _ _ Hexec). lia.
Qed.

(** Every execution is finite: a schedule never runs more statements than
    there is work left. *)
Lemma run_bound sched c c' :
  run sched c = Some c' -> length sched + work_left c' <= work_left c.
Proof.
  revert c. induction sched as [|i sched IH]; intros c; cbn.
  - intros [= <-]. lia.
  - destruct (step i c) as [c1|] eqn:Hstep; [|done]. intros Hrun.
    apply IH in Hrun. apply step_work_left in Hstep. lia.
Qed.

Lemma work_left_spawn r (cs : list (call key_t)) :
  work_left (spawn r cs) = 5 * length cs.
Proof.
  unfold work_left. cbn [spawn pool].
  induction cs as [|cl cs IH]; cbn in *; lia.
Qed.

(** Every execution can be continued until all calls have returned. *)
Lemma completion c :
  serialized c -> exists sched c', run sched c = Some c' /\ all_returned c' = true.
Proof.
  remember (work_left c) as n eqn:Hn. revert c Hn.
  induction n as [n IH] using lt_wf_ind. intros c -> Hser.
  destruct (all_returned c) eqn:Hret.
  - by exists [], c.
  - destruct (progress c Hser Hret) as (i & c1 & Hstep).
    destruct (IH (work_left c1) (step_work_left _ _ _ Hstep) c1 eq_refl)
      as (sched & c' & Hrun & Hall); [by eapply serialized_step|].
    exists (i :: sched), c'. cbn. by rewrite Hstep.
Qed.
(** ** Pools in which every thread calls add *)

Lemma filter_length_updated {A} (p : A -> bool) (l : list A) i (x y : A) :
  l !! i = Some x ->
  length (List.filter p (<[i := y]> l)) + (if p x then 1 else 0) =
  length (List.filter p l) + (if p y then 1 else 0).
Proof.
  revert i. induction l as [|z l IH]; intros [|i]; simpl; try done.
  - intros [= ->]. destruct (p x), (p y); simpl; lia.
  - intros Hi. specialize (IH _ Hi). destruct (p z); simpl; lia.
Qed.

Lemma map_updated {A B} (f : A -> B) (l : list A) i (x y : A) :
  l !! i = Some x -> f y = f x -> map f (<[i := y]> l) = map f l.
Proof.
  revert i. induction l as [|z l IH]; intros [|i]; simpl; try done.
  - intros [= ->] ->. done.
  - intros Hi Hf. by rewrite (IH _ Hi Hf).
Qed.

Lemma step_calls i c c' :
  step i c = Some c' -> map th_call (pool c') = map th_call (pool c).
Proof.
  intros Hstep. apply step_inv in Hstep as (th & th' & r' & Hth & Hexec & ->).
  cbn [pool]. apply (map_updated _ _ _ th th' Hth). by eapply exec_call.
Qed.

Lemma run_calls sched c c' :
  run sched c = Some c' -> map th_call (pool c') = map th_call (pool c).
Proof.
  revert c. induction sched as [|i sched IH]; intros c; cbn.
  - by intros [= <-].
  - destruct (step i c) as [c1|] eqn:Hstep; [|done]. intros Hrun.
    rewrite (IH _ Hrun). by apply (step_calls i).
Qed.

Lemma spawn_calls r (cs : list (call key_t)) : map th_call (pool (spawn r cs)) = cs.
Proof. cbn [spawn pool]. induction cs as [|cl cs IH]; simpl; congruence. Qed.

Lemma wins_none k (l : list (thread key_t)) :
  (forall i th, l !! i = Some th -> won k th = false) -> wins k l = 0.
Proof.
  unfold wins. induction l as [|th l IH]; intros Hl; simpl; [done|].
  rewrite (Hl 0 th eq_refl). apply IH. intros i th' Hi. by apply (Hl (S i)).
Qed.

Lemma add_inv_spawn r args :
  add_inv (m_data r) (spawn r (add_calls args)).
Proof.
  split.
  - intros i th Hth. apply spawn_lookup in Hth as (cl & Hcl & ->).
    unfold add_calls in Hcl. cbn [th_call th_pc add_thread_inv].
    assert (exists a, cl = call_add a.1 a.2) as [a ->]; [|done].
    clear -Hcl. revert i Hcl.
    induction args as [|a args IH]; intros [|i]; simpl; try done.
    + intros [= <-]. by exists a.
    + apply IH.
  - done.
  - intros k. rewrite wins_none.
    + rewrite decide_False; [done|]. cbn [spawn obj].
      intros [[x Hx] Hnone]. congruence.
    + intros i th Hth. apply spawn_lookup in Hth as (cl & _ & ->).
      unfold won. cbn [th_pc]. apply andb_false_r.
Qed.

Lemma add_inv_step m0 i c c' :
  serialized c -> add_inv m0 c -> step i c = Some c' -> add_inv m0 c'.
Proof.
  intros Hser [Hths Hkept Hwins] Hstep.
  pose proof Hstep as Hstep'.
  apply step_inv in Hstep as (th & th' & r' & Hth & Hexec & ->).
  pose proof (Hths _ _ Hth) as Hinv.
  pose proof (fun k => filter_length_updated (won k) _ _ _ th' Hth) as Hcount.
  assert (forall j thj, j ≠ i -> pool c !! j = Some thj -> in_section th = true ->
            in_section thj = false) as Hothers.
  { intros j thj Hne Hj Hin. destruct (in_section thj) eqn:Hinj; [|done].
    destruct Hne. eauto using mutual_exclusion. }
  destruct th as [cl p]. unfold add_thread_inv in Hinv. cbn [th_call th_pc] in Hinv.
  destruct cl as [k v| |]; [|done|done].
  unfold exec in Hexec. cbn [th_call th_pc body_start] in Hexec.
  destruct p as [| |it| | |res|res].
  - (* lock_guard *)
    destruct (recursive_mutex.lock i (m_mtx (obj c))); [|done].
    injection Hexec as <- <-. split; cbn [obj pool m_data].
    + intros j thj Hj.
      destruct (lookup_updated _ _ _ _ _ _ Hth Hj) as [[-> ->]|[Hne Hj']];
        [by cbn|eauto].
    + done.
    + intros k'. specialize (Hcount k'). unfold wins. rewrite <- Hwins.
      unfold wins, won in *. cbn [th_pc] in Hcount.
      rewrite !andb_false_r in Hcount. lia.
  - (* find *)
    injection Hexec as <- <-. split; cbn [obj pool m_data].
    + intros j thj Hj.
      destruct (lookup_updated _ _ _ _ _ _ Hth Hj) as [[-> ->]|[Hne Hj']];
        [by cbn|eauto].
    + done.
    + intros k'. specialize (Hcount k'). unfold wins. rewrite <- Hwins.
      unfold wins, won in *. cbn [th_pc] in Hcount.
      rewrite !andb_false_r in Hcount. lia.
  - (* the test on the iterator *)
    injection Hexec as <- <-. split; cbn [obj pool m_data].
    + intros j thj Hj.
      destruct (lookup_updated _ _ _ _ _ _ Hth Hj) as [[-> ->]|[Hne Hj']];
        [|by eauto].
      subst it. unfold add_thread_inv. cbn [th_call th_pc].
      destruct (m_data (obj c) !! k) eqn:Hk; cbn; eauto.
    + done.
    + intros k'. specialize (Hcount k'). unfold wins. rewrite <- Hwins.
      unfold wins, won in *. cbn [th_pc] in Hcount.
      destruct it; rewrite !andb_false_r in Hcount; lia.
  - (* insert *)
    injection Hexec as <- <-. rewrite insert_absent by done.
    split; cbn [obj pool m_data].
    + intros j thj Hj.
      destruct (lookup_updated _ _ _ _ _ _ Hth Hj) as [[-> ->]|[Hne Hj']].
      { unfold add_thread_inv. cbn [th_call th_pc]. apply lookup_insert_eq. }
      pose proof (Hothers _ _ Hne Hj' eq_refl) as Hout.
      pose proof (Hths _ _ Hj') as Hinvj.
      destruct thj as [[kj vj| |] pj]; unfold add_thread_inv in *;
        cbn [th_call th_pc] in *; try done.
      destruct pj as [| | | | |resj|[[|]|pj|]]; try done.
      * rewrite lookup_insert_ne; [done|]. intros ->. congruence.
      * rewrite lookup_insert_ne; [done|]. intros ->.
        rewrite Hinv in Hinvj. by destruct Hinvj.
    + etrans; [exact Hkept|]. by apply insert_subseteq.
    + intros k'. specialize (Hcount k'). specialize (Hwins k').
      unfold wins, won in *. cbn [th_call th_pc call_key] in Hcount.
      rewrite andb_false_r, andb_true_r in Hcount.
      destruct (decide (k = k')) as [<-|Hne].
      * rewrite bool_decide_true in Hcount by done.
        rewrite decide_False in Hwins by (intros [[x Hx] _]; congruence).
        rewrite decide_True; [lia|]. rewrite lookup_insert_eq.
        split; [eauto|]. eapply lookup_weaken_None; eauto.
      * rewrite bool_decide_false in Hcount by done.
        rewrite lookup_insert_ne by done. lia.
  - (* erase is not part of add *)
    done.
  - (* return *)
    injection Hexec as <- <-. split; cbn [obj pool m_data].
    + intros j thj Hj.
      destruct (lookup_updated _ _ _ _ _ _ Hth Hj) as [[-> ->]|[Hne Hj']]; eauto.
    + done.
    + intros k'. specialize (Hcount k'). unfold wins. rewrite <- Hwins.
      unfold wins, won in *. cbn [th_pc th_call] in Hcount.
      destruct (bool_decide _ && _); lia.
  - done.
Qed.

Lemma add_inv_run m0 sched c c' :
  serialized c -> add_inv m0 c -> run sched c = Some c' -> add_inv m0 c'.
Proof.
  revert c. induction sched as [|i sched IH]; intros c Hser Hinv; cbn.
  - by intros [= <-].
  - destruct (step i c) as [c1|] eqn:Hstep; [|done].
    eauto using serialized_step, add_inv_step.
Qed.
Lemma forallb_lookup {A} (f : A -> bool) (l : list A) i x :
  forallb f l = true -> l !! i = Some x -> f x = true.
Proof.
  revert i. induction l as [|y l IH]; intros [|i]; simpl; try done.
  - intros Hl [= ->]. by apply andb_true_iff in Hl as [? _].
  - intros Hl Hi. apply andb_true_iff in Hl as [_ Hl]. eauto.
Qed.

Lemma map_lookup {A B} (f : A -> B) (l : list A) i :
  map f l !! i = f <$> (l !! i).
Proof. revert i. induction l as [|y l IH]; intros [|i]; simpl; eauto. Qed.

Lemma filter_ext_lookup {A} (p q : A -> bool) (l : list A) :
  (forall i x, l !! i = Some x -> p x = q x) -> List.filter p l = List.filter q l.
Proof.
  induction l as [|y l IH]; intros Hl; simpl; [done|].
  rewrite (Hl 0 y eq_refl), IH; [done|]. intros i x Hi. by apply (Hl (S i)).
Qed.

Lemma filter_length_split {A} (p q : A -> bool) (l : list A) :
  (forall i x, l !! i = Some x -> p x = negb (q x)) ->
  length (List.filter p l) + length (List.filter q l) = length l.
Proof.
  induction l as [|y l IH]; intros Hl; simpl; [done|].
  rewrite (Hl 0 y eq_refl).
  assert (length (List.filter p l) + length (List.filter q l) = length l) as IH'.
  { apply IH. intros i x Hi. by apply (Hl (S i)). }
  destruct (q y); simpl; lia.
Qed.

Lemma filter_length_pos {A} (p : A -> bool) (l : list A) :
  0 < length (List.filter p l) -> exists i x, l !! i = Some x /\ p x = true.
Proof.
  induction l as [|y l IH]; simpl; [lia|].
  destruct (p y) eqn:Hy.
  - intros _. by exists 0, y.
  - intros Hl. destruct (IH Hl) as (i & x & Hi & Hx). by exists (S i), x.
Qed.

Lemma filter_length_all {A} (p : A -> bool) (l : list A) :
  (forall i x, l !! i = Some x -> p x = true) -> length (List.filter p l) = length l.
Proof.
  induction l as [|y l IH]; intros Hl; simpl; [done|].
  rewrite (Hl 0 y eq_refl). simpl. f_equal. apply IH.
  intros i x Hi. by apply (Hl (S i)).
Qed.

(** The argument of a thread is found at the thread's position. *)
Lemma thread_arg args c i th :
  map th_call (pool c) = add_calls args ->
  pool c !! i = Some th ->
  exists a, args !! i = Some a /\ th_call th = call_add a.1 a.2.
Proof.
  intros Hcalls Hth.
  assert (map th_call (pool c) !! i = Some (th_call th)) as Hi.
  { by rewrite map_lookup, Hth. }
  rewrite Hcalls in Hi. unfold add_calls in Hi. rewrite map_lookup in Hi.
  destruct (args !! i) as [a|]; [|done]. injection Hi as <-. by exists a.
Qed.

(** Once add has returned in some thread, the map has the thread's key;
    if add returned true, it holds the thread's handle under that key. *)
Lemma returned_thread m0 c i th :
  add_inv m0 c -> all_returned c = true -> pool c !! i = Some th ->
  exists k v b, th = mk_thread (call_add k v) (finished (ret_bool b)) /\
    is_Some (m_data (obj c) !! k) /\
    (b = true -> m_data (obj c) !! k = Some v).
Proof.
  intros [Hths _ _] Hret Hth.
  pose proof (forallb_lookup _ _ _ _ Hret Hth) as Hfin.
  pose proof (Hths _ _ Hth) as Hinv.
  destruct th as [[k v| |] p]; unfold add_thread_inv in Hinv;
    cbn [th_call th_pc] in Hinv; try done.
  destruct p as [| | | | |res|[b|p|]]; try done.
  exists k, v, b. split; [done|]. destruct b; split; eauto. done.
Qed.

(** Threads that all call add with the same key, absent at the start:
    exactly one call returns true, all the others return false, and the
    map holds the handle of a thread whose call returned true. *)
Lemma add_same_key m0 args c k :
  add_inv m0 c -> all_returned c = true ->
  map th_call (pool c) = add_calls args ->
  args ≠ [] -> (forall a, a ∈ args -> a.1 = k) -> m0 !! k = None ->
  count_returned true c = 1 /\
  count_returned false c = length args - 1.
Proof.
  intros Hinv Hret Hcalls Hne Hkey Hk.
  assert (forall i th, pool c !! i = Some th ->
            exists v b, th = mk_thread (call_add k v) (finished (ret_bool b))) as Hshape.
  { intros i th Hth.
    destruct (returned_thread _ _ _ _ Hinv Hret Hth) as (k' & v & b & -> & _).
    destruct (thread_arg _ _ _ _ Hcalls Hth) as (a & Ha & Hcall).
    cbn [th_call] in Hcall. injection Hcall as -> ->.
    rewrite (Hkey a) by eauto using list_elem_of_lookup_2. eauto. }
  assert (length (pool c) = length args) as Hlen.
  { rewrite <- (length_map th_call), Hcalls. unfold add_calls. apply length_map. }
  assert (count_returned true c = wins k (pool c)) as Htrue.
  { unfold count_returned, wins. f_equal. apply filter_ext_lookup.
    intros i th Hth. destruct (Hshape _ _ Hth) as (v & b & ->).
    unfold returned_bool, won. cbn [th_call th_pc call_key].
    rewrite bool_decide_true by done. by destruct b. }
  assert (is_Some (m_data (obj c) !! k)) as Hin.
  { destruct (lookup_lt_is_Some_2 (pool c) 0) as [th Hth].
    { rewrite Hlen. destruct args; [done|]. simpl. lia. }
    destruct (returned_thread _ _ _ _ Hinv Hret Hth) as (k' & v & b & -> & Hsome & _).
    destruct (Hshape _ _ Hth) as (v' & b' & [= -> _ _]). done. }
  assert (count_returned true c = 1) as Hone.
  { rewrite Htrue, (ai_wins _ _ Hinv). by rewrite decide_True. }
  split; [done|].
  assert (count_returned true c + count_returned false c = length (pool c)).
  { apply filter_length_split. intros i th Hth.
    destruct (Hshape _ _ Hth) as (v & b & ->).
    unfold returned_bool. cbn [th_pc]. by destruct b. }
  lia.
Qed.

(** Threads that call add with pairwise distinct keys, all absent at the
    start: every call returns true and the map holds every thread's
    handle under its key. *)
Lemma add_distinct_keys m0 args c :
  add_inv m0 c -> all_returned c = true ->
  map th_call (pool c) = add_calls args ->
  NoDup args.*1 -> (forall a, a ∈ args -> m0 !! a.1 = None) ->
  count_returned true c = length args /\
  count_returned false c = 0 /\
  (forall a, a ∈ args -> m_data (obj c) !! a.1 = Some a.2).
Proof.
  intros Hinv Hret Hcalls Hnodup Hfree.
  assert (length (pool c) = length args) as Hlen.
  { rewrite <- (length_map th_call), Hcalls. unfold add_calls. apply length_map. }
  assert (forall i th, pool c !! i = Some th ->
            exists a, args !! i = Some a /\
              th = mk_thread (call_add a.1 a.2) (finished (ret_bool true)) /\
              m_data (obj c) !! a.1 = Some a.2) as Hshape.
  { intros i th Hth.
    destruct (returned_thread _ _ _ _ Hinv Hret Hth) as (k & v & b & -> & Hsome & Hv).
    destruct (thread_arg _ _ _ _ Hcalls Hth) as (a & Ha & Hcall).
    cbn [th_call] in Hcall. injection Hcall as -> ->.
    exists a. split; [done|]. destruct b; [eauto|]. exfalso.
    assert (0 < wins a.1 (pool c)) as Hpos.
    { rewrite (ai_wins _ _ Hinv), decide_True; [lia|].
      split; [done|]. eauto using list_elem_of_lookup_2. }
    apply filter_length_pos in Hpos as (j & thj & Hj & Hwon).
    destruct (thread_arg _ _ _ _ Hcalls Hj) as (a' & Ha' & Hcall').
    unfold won in Hwon. apply andb_true_iff in Hwon as [Hkey Hpc].
    rewrite Hcall' in Hkey. cbn [call_key] in Hkey.
    apply bool_decide_eq_true in Hkey.
    assert (i = j) as <-.
    { apply (NoDup_lookup _ _ _ a.1 Hnodup).
      - by rewrite list_lookup_fmap, Ha.
      - by rewrite list_lookup_fmap, Ha', <- Hkey. }
    rewrite Hth in Hj. injection Hj as <-. done. }
  assert (count_returned true c = length (pool c)) as Hall.
  { apply filter_length_all. intros i th Hth.
    by destruct (Hshape _ _ Hth) as (a & _ & -> & _). }
  assert (count_returned true c + count_returned false c = length (pool c)).
  { apply filter_length_split. intros i th Hth.
    by destruct (Hshape _ _ Hth) as (a & _ & -> & _). }
  split; [lia|]. split; [lia|].
  intros a Ha. apply list_elem_of_lookup_1 in Ha as [i Hi].
  destruct (lookup_lt_is_Some_2 (pool c) i) as [th Hth].
  { rewrite Hlen. eauto using lookup_lt_Some. }
  destruct (Hshape _ _ Hth) as (a' & Ha' & _ & Hdata). congruence.
Qed.

(** Threads that all call add with one key that the map has at the start:
    no call returns true. *)
Lemma add_same_key_present m0 args c k :
  add_inv m0 c -> all_returned c = true ->
  map th_call (pool c) = add_calls args ->
  (forall a, a ∈ args -> a.1 = k) -> is_Some (m0 !! k) ->
  count_returned true c = 0.
Proof.
  intros Hinv Hret Hcalls Hkey [x Hx].
  assert (count_returned true c = wins k (pool c)) as ->.
  { unfold count_returned, wins. f_equal. apply filter_ext_lookup.
    intros i th Hth.
    destruct (returned_thread _ _ _ _ Hinv Hret Hth) as (k' & v & b & -> & _).
    destruct (thread_arg _ _ _ _ Hcalls Hth) as (a & Ha & Hcall).
    cbn [th_call] in Hcall. injection Hcall as -> ->.
    unfold returned_bool, won. cbn [th_call th_pc call_key].
    rewrite bool_decide_true by eauto using list_elem_of_lookup_2. by destruct b. }
  rewrite (ai_wins _ _ Hinv), decide_False; [done|]. intros [_ Hnone]. congruence.
Qed.

(** C9, as the code has it: threads call add at the same time on one
    manager whose mutex is free.  However the scheduler interleaves their
    statements, the execution is finite, it can always be continued until
    every call has returned, and at no moment are two threads inside the
    body of add.  When every call has returned: if all threads used one
    key and that key was absent at the start, exactly one call returned
    true and all the others false; if the threads used pairwise distinct
    keys, all absent at the start, every call returned true and every
    handle is in the map. *)
Theorem add_concurrent r args :
  m_mtx r = recursive_mutex.free ->
  let c0 := spawn r (add_calls args) in
  (forall sched c, run sched c0 = Some c ->
     length sched <= 5 * length args /\
     (exists sched' c', run sched' c = Some c' /\ all_returned c' = true) /\
     (forall i j thi thj, pool c !! i = Some thi -> pool c !! j = Some thj ->
        in_section thi = true -> in_section thj = true -> i = j)) /\
  (forall sched c, run sched c0 = Some c -> all_returned c = true ->
     (forall k, args ≠ [] -> (forall a, a ∈ args -> a.1 = k) ->
        m_data r !! k = None ->
        count_returned true c = 1 /\
        count_returned false c = length args - 1) /\
     (NoDup args.*1 -> (forall a, a ∈ args -> m_data r !! a.1 = None) ->
        count_returned true c = length args /\
        count_returned false c = 0 /\
        (forall a, a ∈ args -> m_data (obj c) !! a.1 = Some a.2))).
Proof.
  intros Hfree c0.
  pose proof (serialized_spawn r (add_calls args) Hfree) as Hser0.
  pose proof (add_inv_spawn r args) as Hinv0.
  split.
  - intros sched c Hrun.
    assert (serialized c) as Hser by (by eapply serialized_run).
    split; [|split].
    + pose proof (run_bound _ _ _ Hrun) as Hbound.
      subst c0. rewrite work_left_spawn in Hbound.
      unfold add_calls in Hbound. rewrite length_map in Hbound. lia.
    + by apply completion.
    + intros i j thi thj. by apply mutual_exclusion.
  - intros sched c Hrun Hret.
    assert (add_inv (m_data r) c) as Hinv by (by eapply add_inv_run).
    assert (map th_call (pool c) = add_calls args) as Hcalls.
    { rewrite (run_calls _ _ _ Hrun). apply spawn_calls. }
    split.
    + intros k. by apply add_same_key.
    + by apply add_distinct_keys.
Qed.
(** ** One thread alone: the machine computes [add], [get] and [del] *)

Lemma solo_call (cl : call key_t) r :
  m_mtx r = recursive_mutex.free ->
  exists n, n <= 5 /\
    run (replicate n 0) (spawn r [cl]) =
      Some (mk_config (outcome cl r).2 [mk_thread cl (finished (outcome cl r).1)]).
Proof.
  destruct r as [mtx data]. cbn [m_mtx]. intros ->.
  destruct cl as [k v|k|k].
  - destruct (data !! k) as [x|] eqn:Hk.
    + exists 4. split; [lia|]. cbn [outcome]. rewrite add_present by (cbn; eauto).
      cbn. unfold std_map.find. rewrite Hk. done.
    + exists 5. split; [lia|]. cbn [outcome]. rewrite add_absent by done.
      cbn. unfold std_map.find. rewrite Hk. cbn. by rewrite insert_absent.
  - exists 4. split; [lia|]. cbn. unfold get, std_map.find. cbn.
    by destruct (data !! k).
  - exists 3. split; [lia|]. done.
Qed.
End machine_facts.

Lemma add_concurrent_witness :
  let r : _base_mgr Z := _base_mgr_ctor in
  let same := [(0%Z, Some 1); (0%Z, Some 2); (0%Z, Some 3)] in
  let apart := [(0%Z, Some 1); (1%Z, Some 2); (2%Z, Some 3)] in
  let sched1 := [1; 1; 1; 1; 1; 0; 0; 0; 0; 2; 2; 2; 2] in
  let sched2 := [2; 2; 2; 2; 2; 0; 0; 0; 0; 0; 1; 1; 1; 1; 1] in
  m_mtx r = recursive_mutex.free /\
  (exists c, run [1; 0; 1] (spawn r (add_calls same)) = None /\
     run [1; 1] (spawn r (add_calls same)) = Some c /\
     length [1; 1] <= 5 * length same /\
     exists sched' c', run sched' c = Some c' /\ all_returned c' = true) /\
  (exists c,
     run sched1 (spawn r (add_calls same)) = Some c /\
     all_returned c = true /\
     same ≠ [] /\ (forall a, a ∈ same -> a.1 = 0%Z) /\ m_data r !! 0%Z = None /\
     count_returned true c = 1 /\ count_returned false c = length same - 1) /\
  (exists c,
     run sched2 (spawn r (add_calls apart)) = Some c /\
     all_returned c = true /\
     NoDup apart.*1 /\ (forall a, a ∈ apart -> m_data r !! a.1 = None) /\
     count_returned true c = length apart /\ count_returned false c = 0 /\
     (forall a, a ∈ apart -> m_data (obj c) !! a.1 = Some a.2)).
Proof.
  intros r same apart sched1 sched2.
  destruct (add_concurrent r same eq_refl) as [Hfinite Hsame].
  destruct (add_concurrent r apart eq_refl) as [_ Hapart].
  split; [reflexivity|]. split; [|split].
  - eexists. split; [vm_compute; reflexivity|].
    split; [vm_compute; reflexivity|].
    match goal with
    | |- _ /\ exists sched' c', run sched' ?c = _ /\ _ =>
        destruct (Hfinite [1; 1] c) as (Hlen & Hend & _);
          [vm_compute; reflexivity|]
    end.
    split; [exact Hlen|exact Hend].
  - eexists. split; [vm_compute; reflexivity|].
    split; [vm_compute; reflexivity|].
    assert (forall a, a ∈ same -> a.1 = 0%Z) as Hkey.
    { intros a Ha. repeat (apply elem_of_cons in Ha as [->|Ha]; [done|]).
      by apply elem_of_nil in Ha. }
    split; [done|]. split; [exact Hkey|]. split; [reflexivity|].
    match goal with
    | |- count_returned true ?c = 1 /\ _ =>
        destruct (Hsame sched1 c) as [Hone _];
          [vm_compute; reflexivity|vm_compute; reflexivity|]
    end.
    apply (Hone 0%Z); [done|exact Hkey|reflexivity].
  - eexists. split; [vm_compute; reflexivity|].
    split; [vm_compute; reflexivity|].
    assert (NoDup apart.*1) as Hnodup.
    { cbn. repeat (apply NoDup_cons; split;
        [intros Ha; repeat (apply elem_of_cons in Ha as [Ha|Ha]; [discriminate Ha|]);
         by apply elem_of_nil in Ha|]).
      apply NoDup_nil_2. }
    assert (forall a, a ∈ apart -> m_data r !! a.1 = None) as Hfree.
    { intros a Ha. repeat (apply elem_of_cons in Ha as [->|Ha]; [done|]).
      by apply elem_of_nil in Ha. }
    split; [exact Hnodup|]. split; [exact Hfree|].
    match goal with
    | |- count_returned true ?c = _ /\ _ =>
        destruct (Hapart sched2 c) as [_ Hall];
          [vm_compute; reflexivity|vm_compute; reflexivity|]
    end.
    apply Hall; [exact Hnodup|exact Hfree].
Defined.

(** C9 fails on the code when the key is in the map before the threads
    start: two threads call add with key 0 on a manager that already maps
    key 0, and both calls return false. *)
Lemma add_concurrent_present :
  let r : _base_mgr Z := mk_base_mgr recursive_mutex.free {[ 0%Z := Some 9 ]} in
  let args := [(0%Z, Some 1); (0%Z, Some 2)] in
  exists c,
    run [1; 1; 1; 1; 0; 0; 0; 0] (spawn r (add_calls args)) = Some c /\
    all_returned c = true /\
    count_returned true c = 0 /\
    count_returned false c = 2 /\
    m_data (obj c) = m_data r.
Proof. eexists. vm_compute. repeat split. Qed.

(** ** The header's own test *)

(** A run of [test()] registers keys 0 and 1 only: it prints the two
    values before and after the increment, and its assertion fails at
    [i = 2], where get returns the empty handle. *)
Lemma test_run :
  test.test (start tt) =
    inr (test.assertion_failed,
         [test.out_int 0; test.out_str " :::::::"; test.out_endl;
          test.out_int 0; test.out_endl; test.out_int 100; test.out_endl;
          test.out_int 1; test.out_str " :::::::"; test.out_endl;
          test.out_int 100; test.out_endl; test.out_int 200; test.out_endl;
          test.out_int 2; test.out_str " :::::::"; test.out_endl]).
Proof. vm_compute. reflexivity. Qed.

(* ================================================================== *)
(** * How add, get and del compose                                     *)
(* ================================================================== *)

Section base_mgr_algebra.
Context `{Countable key_t}.
Implicit Types (r : _base_mgr key_t) (k : key_t) (v e : val_pt).

Lemma add_data r k v :
  m_data (add k v r).2 =
    match m_data r !! k with Some _ => m_data r | None => <[k := v]> (m_data r) end.
Proof.
  destruct (m_data r !! k) as [x|] eqn:Hk.
  - by rewrite add_present.
  - by rewrite add_absent.
Qed.

Lemma add_result r k v :
  (add k v r).1 = match m_data r !! k with Some _ => false | None => true end.
Proof.
  destruct (m_data r !! k) as [x|] eqn:Hk.
  - by rewrite add_present.
  - by rewrite add_absent.
Qed.

Lemma del_data r k : m_data (del k r) = delete k (m_data r).
Proof. done. Qed.

(** X1: add returns true exactly when the key was absent; whatever it
    returns, the key is present afterwards and every entry the map had
    before is still there with the same handle. *)
Theorem add_keeps_entries r k v :
  ((add k v r).1 = true <-> m_data r !! k = None) /\
  is_Some (m_data (add k v r).2 !! k) /\
  m_data r ⊆ m_data (add k v r).2.
Proof.
  rewrite add_result, add_data.
  destruct (m_data r !! k) as [x|] eqn:Hk.
  - rewrite Hk. repeat split; eauto; done.
  - rewrite lookup_insert_eq. repeat split; eauto. by apply insert_subseteq.
Qed.

(** X2: add makes the map one entry larger when it returns true and leaves
    its size alone when it returns false. *)
Theorem add_size r k v :
  size (m_data (add k v r).2) =
    size (m_data r) + (if (add k v r).1 then 1 else 0).
Proof.
  rewrite add_result, add_data.
  destruct (m_data r !! k) as [x|] eqn:Hk.
  - lia.
  - rewrite map_size_insert_None by done. lia.
Qed.

(** X3: add is idempotent on its key: right after add(k, v), whatever it
    returned, add(k, v') returns false and changes nothing. *)
Theorem add_twice r k v v' :
  add k v' (add k v r).2 = (false, (add k v r).2).
Proof.
  apply add_present. rewrite add_data.
  destruct (m_data r !! k) as [x|] eqn:Hk; [by rewrite Hk|].
  rewrite lookup_insert_eq. eauto.
Qed.

(** X4: two adds with different keys commute: in either order each call
    returns what it returns on its own and the manager ends up the same. *)
Theorem add_comm r k1 k2 v1 v2 :
  k1 ≠ k2 ->
  (add k2 v2 (add k1 v1 r).2).2 = (add k1 v1 (add k2 v2 r).2).2 /\
  (add k2 v2 (add k1 v1 r).2).1 = (add k2 v2 r).1 /\
  (add k1 v1 (add k2 v2 r).2).1 = (add k1 v1 r).1.
Proof.
  intros Hne. split; [|split].
  - apply mgr_eq; [by rewrite !add_keeps_mutex|].
    rewrite (add_data (add k1 v1 r).2), (add_data (add k2 v2 r).2).
    rewrite !add_other by done. rewrite !add_data.
    destruct (m_data r !! k1), (m_data r !! k2); try done.
    by apply insert_insert_ne.
  - rewrite !add_result. by rewrite add_other.
  - rewrite !add_result. by rewrite add_other.
Qed.

(** X5: del undoes add.  After add(k, v) and del(k) the manager is what
    del(k) alone would have left; when the key was absent before the add,
    that is exactly the manager before the add. *)
Theorem add_del_undo r k v :
  del k (add k v r).2 = del k r /\
  (m_data r !! k = None -> del k (add k v r).2 = r).
Proof.
  assert (del k (add k v r).2 = del k r) as Hdel.
  { apply mgr_eq; [cbn [del m_mtx]; apply add_keeps_mutex|].
    rewrite !del_data, add_data.
    destruct (m_data r !! k); [done|]. apply delete_insert_eq. }
  split; [done|]. intros Hk. rewrite Hdel.
  apply mgr_eq; [done|]. rewrite del_data. by apply delete_id.
Qed.

(** X6: del followed by add replaces.  After del(k), add(k, v) always
    returns true; get(k) then returns v, whatever the key was mapped to
    before, and no other key is affected. *)
Theorem del_add_replaces r k v :
  (add k v (del k r)).1 = true /\
  get k (add k v (del k r)).2 = v /\
  (forall k', k' ≠ k ->
     m_data (add k v (del k r)).2 !! k' = m_data r !! k').
Proof.
  assert (m_data (del k r) !! k = None) as Hk.
  { rewrite del_lookup. by rewrite decide_True. }
  rewrite add_absent by done. cbn [fst snd m_data]. split; [done|]. split.
  - rewrite get_lookup. cbn [m_data]. by rewrite lookup_insert_eq.
  - intros k' Hne. rewrite lookup_insert_ne by done.
    rewrite del_lookup. by rewrite decide_False.
Qed.

(** X7: del is idempotent, dels commute, and del commutes with add on a
    different key (same manager, same result of add). *)
Theorem del_algebra r k k' v :
  del k (del k r) = del k r /\
  del k (del k' r) = del k' (del k r) /\
  (k ≠ k' ->
     del k (add k' v r).2 = (add k' v (del k r)).2 /\
     (add k' v (del k r)).1 = (add k' v r).1).
Proof.
  split; [|split].
  - apply mgr_eq; [done|]. rewrite !del_data. apply delete_delete_eq.
  - apply mgr_eq; [done|]. rewrite !del_data. apply delete_delete.
  - intros Hne. split.
    + apply mgr_eq; [cbn [del m_mtx]; by rewrite !add_keeps_mutex|].
      rewrite del_data, !add_data, del_data.
      rewrite lookup_delete_ne by done.
      destruct (m_data r !! k'); [done|]. by apply delete_insert_ne.
    + rewrite !add_result, del_data. by rewrite lookup_delete_ne.
Qed.

(** X8: del makes the map one entry smaller when the key was present and
    leaves its size alone when it was absent. *)
Theorem del_size r k :
  size (m_data (del k r)) =
    size (m_data r) - (if decide (is_Some (m_data r !! k)) then 1 else 0).
Proof.
  rewrite del_data, map_size_delete.
  destruct (m_data r !! k) as [x|] eqn:Hk.
  - rewrite decide_True by eauto. cbn. lia.
  - rewrite decide_False by (intros [? ?]; done). cbn. lia.
Qed.
End base_mgr_algebra.

Lemma add_comm_witness :
  let r := mk_base_mgr recursive_mutex.free {[ 0%Z := Some 5 ]} in
  0%Z ≠ 1%Z /\
  (add 1%Z (Some 7) (add 0%Z (Some 6) r).2).2 =
    (add 0%Z (Some 6) (add 1%Z (Some 7) r).2).2 /\
  (add 1%Z (Some 7) (add 0%Z (Some 6) r).2).1 = (add 1%Z (Some 7) r).1 /\
  (add 0%Z (Some 6) (add 1%Z (Some 7) r).2).1 = (add 0%Z (Some 6) r).1.
Proof.
  intros r. split; [done|]. apply (add_comm r 0%Z 1%Z (Some 6) (Some 7)). done.
Defined.

Lemma add_del_undo_witness :
  let r := mk_base_mgr recursive_mutex.free {[ 0%Z := Some 5 ]} in
  del 1%Z (add 1%Z (Some 7) r).2 = del 1%Z r /\
  (m_data r !! 1%Z = None /\ del 1%Z (add 1%Z (Some 7) r).2 = r).
Proof.
  intros r. destruct (add_del_undo r 1%Z (Some 7)) as [Hdel Hundo].
  split; [exact Hdel|]. split; [reflexivity|]. apply Hundo. reflexivity.
Defined.

Lemma del_add_replaces_witness :
  let r := mk_base_mgr recursive_mutex.free {[ 0%Z := Some 5; 1%Z := Some 6 ]} in
  (add 0%Z (Some 9) (del 0%Z r)).1 = true /\
  get 0%Z (add 0%Z (Some 9) (del 0%Z r)).2 = Some 9 /\
  (1%Z ≠ 0%Z /\
   m_data (add 0%Z (Some 9) (del 0%Z r)).2 !! 1%Z = m_data r !! 1%Z).
Proof.
  intros r. destruct (del_add_replaces r 0%Z (Some 9)) as (Htrue & Hget & Hothers).
  split; [exact Htrue|]. split; [exact Hget|]. split; [done|].
  apply Hothers. done.
Defined.

Lemma del_algebra_witness :
  let r := mk_base_mgr recursive_mutex.free {[ 0%Z := Some 5 ]} in
  del 0%Z (del 0%Z r) = del 0%Z r /\
  del 0%Z (del 1%Z r) = del 1%Z (del 0%Z r) /\
  (0%Z ≠ 1%Z /\
   del 0%Z (add 1%Z (Some 7) r).2 = (add 1%Z (Some 7) (del 0%Z r)).2 /\
   (add 1%Z (Some 7) (del 0%Z r)).1 = (add 1%Z (Some 7) r).1).
Proof.
  intros r. destruct (del_algebra r 0%Z 1%Z (Some 7)) as (Hidem & Hcomm & Hadd).
  split; [exact Hidem|]. split; [exact Hcomm|]. split; [done|].
  apply Hadd. done.
Defined.

(* ================================================================== *)
(** * Managers and entities in one process                             *)
(* ================================================================== *)

Section process_more.
Context `{Countable key_t} {val_t ext : Type}.
Implicit Types (w : world key_t val_t ext) (k : key_t) (e v : val_pt).

Lemma world_eq w w' :
  objs w = objs w' -> mgrs w = mgrs w' -> m_instance w = m_instance w' ->
  outside w = outside w' -> calls w = calls w' -> w = w'.
Proof. destruct w, w'; cbn; congruence. Qed.

(** A method that leaves the manager as it is leaves the process as it
    is. *)
Lemma through_same {A} (a : addr) (method : _base_mgr key_t -> A * _base_mgr key_t)
    w r :
  mgrs w !! a = Some r -> (method r).2 = r ->
  through (Some a) method w = Some ((method r).1, w).
Proof.
  intros Hr Hsame. rewrite (through_Some _ _ _ _ Hr), Hsame.
  do 2 f_equal. apply world_eq; try done. cbn [mgrs]. by apply insert_id.
Qed.

(** X9: instance() never fails and always builds a new, empty manager: the
    handle is non-empty, its address held nothing before, every manager
    and every entity that existed is untouched, and through the new handle
    get returns the empty handle for every key and del changes nothing. *)
Theorem instance_new_manager w :
  exists a,
    (instance w).1 = Some a /\
    objs w !! a = None /\ mgrs w !! a = None /\
    (forall a', a' ≠ a -> mgrs (instance w).2 !! a' = mgrs w !! a') /\
    objs (instance w).2 = objs w /\
    calls (instance w).2 = calls w /\
    (forall k, ptr_get (Some a) k (instance w).2 = Some (nullptr, (instance w).2)) /\
    (forall k, ptr_del (Some a) k (instance w).2 = Some (tt, (instance w).2)).
Proof.
  exists (new_addr w). destruct (new_addr_fresh w) as [Ho Hm].
  assert (mgrs (instance w).2 !! new_addr w = Some _base_mgr_ctor) as Hnew.
  { cbn [instance snd mgrs]. apply lookup_insert_eq. }
  repeat split; try done.
  - intros a' Hne. cbn [instance snd mgrs]. by apply lookup_insert_ne.
  - intros k. unfold ptr_get.
    rewrite (through_same _ _ _ _ Hnew) by done. cbn [fst].
    rewrite get_lookup. cbn [_base_mgr_ctor m_data]. by rewrite lookup_empty.
  - intros k. unfold ptr_del.
    rewrite (through_same _ _ _ _ Hnew); [done|]. cbn [snd].
    apply mgr_eq; [done|]. cbn [del _base_mgr_ctor m_data std_map.erase].
    apply delete_empty.
Qed.

End process_more.

(* ================================================================== *)
(** * The header's test function, from any starting state              *)
(* ================================================================== *)

Section test_facts.
Implicit Types (w : test.process) (a p : addr) (o : test.base_test).

Lemma ptr_val_Some a w o :
  objs w !! a = Some o -> test.ptr_val (Some a) w = Some (test.val o).
Proof. intros Ho. unfold test.ptr_val. by rewrite Ho. Qed.

Lemma ptr_val_set_Some a w o z :
  objs w !! a = Some o ->
  test.ptr_val_set (Some a) z w =
    Some (mk_world (<[a := test.val_set z o]> (objs w)) (mgrs w)
                   (m_instance w) (outside w) (calls w)).
Proof. intros Ho. unfold test.ptr_val_set. by rewrite Ho. Qed.

Lemma loop_body_miss a (r : _base_mgr Z) i w out :
  mgrs w !! a = Some r -> get i r = nullptr ->
  test.loop_body (Some a) i w out =
    inr (test.assertion_failed,
         out ++ [test.out_int i; test.out_str " :::::::"; test.out_endl]).
Proof.
  intros Hr Hget. unfold test.loop_body, ptr_get.
  rewrite (through_same _ _ _ _ Hr) by done. cbn [fst]. by rewrite Hget.
Qed.

Lemma int_add_fits (x y : Z) :
  (test.INT_MIN <= x + y <= test.INT_MAX)%Z -> test.int_add x y = (x + y)%Z.
Proof.
  unfold test.int_add, test.int_wrap, test.INT_MIN, test.INT_MAX. intros Hfit.
  rewrite Z.mod_small by lia. lia.
Qed.

(** At the upper end of [int] the sum wraps around. *)
Lemma int_add_wraps : test.int_add test.INT_MAX 100 = (-2147483549)%Z.
Proof. reflexivity. Qed.

Lemma loop_body_hit a (r : _base_mgr Z) i p o w out :
  mgrs w !! a = Some r -> get i r = Some p -> objs w !! p = Some o ->
  test.loop_body (Some a) i w out =
    inl (mk_world (<[p := test.val_set (test.int_add (test.val o) 100) o]> (objs w))
                  (mgrs w) (m_instance w) (outside w) (calls w),
         (out ++ [test.out_int i; test.out_str " :::::::"; test.out_endl])
             ++ [test.out_int (test.val o); test.out_endl]
             ++ [test.out_int (test.int_add (test.val o) 100); test.out_endl]).
Proof.
  intros Hr Hget Ho. unfold test.loop_body, ptr_get.
  rewrite (through_same _ _ _ _ Hr) by done. cbn [fst]. rewrite Hget.
  rewrite (ptr_val_Some _ _ _ Ho), (ptr_val_set_Some _ _ _ _ Ho).
  erewrite ptr_val_Some; [|cbn [objs]; apply lookup_insert_eq].
  cbn [test.val test.val_set test.m_val]. by rewrite <- !app_assoc.
Qed.

(** X11: one round of the loop in test().  When the manager has no entry
    for [i] the round prints the index and stops at the assertion.  When
    it maps [i] to a live entity whose value plus 100 is still an [int],
    the round prints the index, the value and the value plus 100, and
    leaves that entity, and nothing else, changed to the larger value. *)
Theorem loop_body_round a (r : _base_mgr Z) i w out :
  mgrs w !! a = Some r ->
  (get i r = nullptr ->
     test.loop_body (Some a) i w out =
       inr (test.assertion_failed,
            out ++ [test.out_int i; test.out_str " :::::::"; test.out_endl])) /\
  (forall p o, get i r = Some p -> objs w !! p = Some o ->
     (test.INT_MIN <= test.val o)%Z -> (test.val o + 100 <= test.INT_MAX)%Z ->
     exists w',
       test.loop_body (Some a) i w out =
         inl (w', out ++ [test.out_int i; test.out_str " :::::::"; test.out_endl;
                          test.out_int (test.val o); test.out_endl;
                          test.out_int (test.val o + 100); test.out_endl]) /\
       test.ptr_val (Some p) w' = Some (test.val o + 100)%Z /\
       (forall p', p' ≠ p -> objs w' !! p' = objs w !! p') /\
       mgrs w' = mgrs w).
Proof.
  intros Hr. split; [by apply loop_body_miss|].
  intros p o Hget Ho Hlow Hhigh.
  assert (test.int_add (test.val o) 100 = (test.val o + 100)%Z) as Hsum.
  { apply int_add_fits. lia. }
  eexists. split; [|split; [|split]].
  - rewrite (loop_body_hit _ _ _ _ _ _ _ Hr Hget Ho), Hsum.
    by rewrite <- !app_assoc.
  - erewrite ptr_val_Some; [|cbn [objs]; apply lookup_insert_eq]. done.
  - intros p' Hne. cbn [objs]. by apply lookup_insert_ne.
  - done.
Qed.

(** X12: test() never reaches its end.  From every starting state it
    registers two entities under keys 0 and 1, prints 0 and 100 for the
    first and 100 and 200 for the second, and then its assertion fails in
    the round for [i = 2], a key it never added. *)
Theorem test_aborts w :
  test.test w =
    inr (test.assertion_failed,
         [test.out_int 0; test.out_str " :::::::"; test.out_endl;
          test.out_int 0; test.out_endl; test.out_int 100; test.out_endl;
          test.out_int 1; test.out_str " :::::::"; test.out_endl;
          test.out_int 100; test.out_endl; test.out_int 200; test.out_endl;
          test.out_int 2; test.out_str " :::::::"; test.out_endl]).
Proof.
  unfold test.test. cbn [new_instance]. set (a1 := new_addr w).
  erewrite ptr_val_set_Some by (cbn [objs]; apply lookup_insert_eq).
  cbn [instance objs mgrs m_instance outside calls].
  match goal with |- context [create (Some ?a) _ ?x] =>
    set (a2 := a); set (w2 := x) end.
  unfold create. cbn [new_instance]. set (a3 := new_addr w2).
  assert (a3 ≠ a1) as Hne.
  { intros Heq. destruct (new_addr_fresh w2) as [Hf _]. fold a3 in Hf.
    rewrite Heq in Hf. subst w2. cbn [objs] in Hf.
    by rewrite lookup_insert_eq in Hf. }
  unfold ptr_add.
  erewrite through_Some by (subst w2; cbn [mgrs]; apply lookup_insert_eq).
  lazy beta iota zeta.
  erewrite through_Some by (cbn [mgrs]; apply lookup_insert_eq).
  lazy beta iota zeta. unfold test.and_then at 4.
  set (r := (add 1%Z (Some a1) (add 0%Z (Some a3) _base_mgr_ctor).2).2).
  erewrite (loop_body_hit _ r 0%Z a3);
    [|cbn [mgrs]; apply lookup_insert_eq|reflexivity
     |subst w2; cbn [objs]; apply lookup_insert_eq].
  unfold test.and_then at 3.
  erewrite (loop_body_hit _ r 1%Z a1);
    [|cbn [mgrs]; apply lookup_insert_eq|reflexivity
     |subst w2; cbn [objs];
      rewrite !lookup_insert_ne by done; apply lookup_insert_eq].
  unfold test.and_then at 2.
  erewrite (loop_body_miss _ r 2%Z);
    [|cbn [mgrs]; apply lookup_insert_eq|reflexivity].
  reflexivity.
Qed.
(** X13: the manager shares the entity with the caller, it does not copy
    it: after a successful add of a handle to a live entity, get on that
    key returns the very same handle, so a value written through the handle
    that get returned is read back through the caller's own handle. *)
Theorem registered_entity_shared w h k a o z w1 :
  objs w !! a = Some o ->
  ptr_add h k (Some a) w = Some (true, w1) ->
  exists ins w2,
    ptr_get h k w1 = Some (ins, w1) /\ ins = Some a /\
    test.ptr_val_set ins z w1 = Some w2 /\
    test.ptr_val (Some a) w2 = Some z /\
    ptr_get h k w2 = Some (Some a, w2).
Proof.
  intros Ho Hadd.
  pose proof (through_keeps_objs _ _ _ _ _ Hadd) as Hobjs.
  apply through_inv in Hadd as (am & r & -> & Hr & Htrue & Hw1).
  assert (m_data r !! k = None) as Hk.
  { destruct (m_data r !! k) as [x|] eqn:Hx; [|done].
    rewrite add_present in Htrue by eauto. done. }
  set (r1 := (add k (Some a) r).2) in *.
  assert (mgrs w1 !! am = Some r1) as Hr1.
  { rewrite Hw1. cbn [mgrs]. apply lookup_insert_eq. }
  assert (get k r1 = Some a) as Hget.
  { subst r1. rewrite get_lookup, add_lookup, Hk. done. }
  assert (objs w1 !! a = Some o) as Ho1 by (by rewrite Hobjs).
  exists (Some a). eexists. split; [|split; [done|split; [|split]]].
  - unfold ptr_get. rewrite (through_same _ _ _ _ Hr1) by done.
    cbn [fst]. by rewrite Hget.
  - by apply ptr_val_set_Some.
  - erewrite ptr_val_Some; [|cbn [objs]; apply lookup_insert_eq]. done.
  - unfold ptr_get. erewrite through_same; [|cbn [mgrs]; exact Hr1|done].
    cbn [fst]. by rewrite Hget.
Qed.
End test_facts.

Lemma registered_entity_shared_witness :
  let w0 : test.process := start tt in
  let op := (new_instance w0).1 in
  let w1 := (new_instance w0).2 in
  let h := (instance w1).1 in
  let w2 := (instance w1).2 in
  exists w3 ins w4,
    (objs w2 !! 0 = Some default_ctor /\ op = Some 0 /\
     ptr_add h 1%Z op w2 = Some (true, w3)) /\
    ptr_get h 1%Z w3 = Some (ins, w3) /\ ins = Some 0 /\
    test.ptr_val_set ins 100%Z w3 = Some w4 /\
    test.ptr_val (Some 0) w4 = Some 100%Z /\
    ptr_get h 1%Z w4 = Some (Some 0, w4).
Proof.
  intros w0 op w1 h w2.
  assert (exists w3, ptr_add h 1%Z (Some 0) w2 = Some (true, w3)) as [w3 Hadd].
  { eexists. reflexivity. }
  destruct (registered_entity_shared w2 h 1%Z 0 default_ctor 100%Z w3 eq_refl Hadd)
    as (ins & w4 & Hrest).
  exists w3, ins, w4. split; [|exact Hrest].
  split; [reflexivity|]. split; [reflexivity|exact Hadd].
Defined.

Lemma loop_body_round_witness :
  let w : test.process :=
    mk_world {[ 5 := test.mk_base_test 40 ]}
             {[ 2 := mk_base_mgr recursive_mutex.free {[ 0%Z := Some 5 ]} ]}
             nullptr tt [] in
  let r := mk_base_mgr recursive_mutex.free {[ 0%Z := Some 5 ]} in
  mgrs w !! 2 = Some r /\
  (get 1%Z r = nullptr /\
   test.loop_body (Some 2) 1%Z w [] =
     inr (test.assertion_failed,
          [test.out_int 1; test.out_str " :::::::"; test.out_endl])) /\
  (get 0%Z r = Some 5 /\ objs w !! 5 = Some (test.mk_base_test 40) /\
   (test.INT_MIN <= 40)%Z /\ (40 + 100 <= test.INT_MAX)%Z /\
   exists w',
     test.loop_body (Some 2) 0%Z w [] =
       inl (w', [test.out_int 0; test.out_str " :::::::"; test.out_endl;
                 test.out_int 40; test.out_endl;
                 test.out_int 140; test.out_endl]) /\
     test.ptr_val (Some 5) w' = Some 140%Z).
Proof.
  intros w r.
  destruct (loop_body_round 2 r 1%Z w [] eq_refl) as [Hmiss _].
  destruct (loop_body_round 2 r 0%Z w [] eq_refl) as [_ Hhit].
  assert (test.INT_MIN <= 40)%Z as Hlow by (vm_compute; discriminate).
  assert (40 + 100 <= test.INT_MAX)%Z as Hhigh by (vm_compute; discriminate).
  split; [reflexivity|]. split.
  - split; [reflexivity|]. apply Hmiss. reflexivity.
  - split; [reflexivity|]. split; [reflexivity|].
    split; [exact Hlow|]. split; [exact Hhigh|].
    destruct (Hhit 5 (test.mk_base_test 40) eq_refl eq_refl Hlow Hhigh)
      as (w' & Hrun & Hval & _).
    exists w'. split; [exact Hrun|exact Hval].
Defined.

(* ================================================================== *)
(** * Properties of the machine for any mix of add, get and del        *)
(* ================================================================== *)

Section machine_more.
Context `{Countable key_t}.
Implicit Types (c : config key_t) (th : thread key_t) (r : _base_mgr key_t).
Implicit Types (i j : tid) (k : key_t) (sched o : list tid).
Implicit Types (cs : list (call key_t)).

Lemma outcome_mutex (cl : call key_t) r : m_mtx (outcome cl r).2 = m_mtx r.
Proof. destruct cl; cbn [outcome snd]; [apply add_keeps_mutex|done|done]. Qed.

Lemma replay_mutex o cs r : m_mtx (replay o cs r).1 = m_mtx r.
Proof.
  revert r. induction o as [|i o IH]; intros r; cbn [replay]; [done|].
  destruct (cs !! i) as [cl|]; [|apply IH].
  cbn [fst]. by rewrite IH, outcome_mutex.
Qed.

Lemma replay_snoc o cs r j (cl : call key_t) :
  cs !! j = Some cl ->
  replay (o ++ [j]) cs r =
    ((outcome cl (replay o cs r).1).2,
     (replay o cs r).2 ++ [(j, (outcome cl (replay o cs r).1).1)]).
Proof.
  intros Hj. revert r. induction o as [|i o IH]; intros r; cbn [replay app].
  - by rewrite Hj.
  - destruct (cs !! i) as [cl'|]; [|apply IH].
    rewrite IH. done.
Qed.

Lemma replay_threads o cs r :
  (forall i, i ∈ o -> i < length cs) -> (replay o cs r).2.*1 = o.
Proof.
  revert r. induction o as [|i o IH]; intros r Ho; cbn [replay]; [done|].
  destruct (lookup_lt_is_Some_2 cs i) as [cl Hcl].
  { apply Ho. by left. }
  rewrite Hcl. cbn [snd fmap list_fmap fst]. f_equal.
  apply IH. intros i' Hi'. apply Ho. by right.
Qed.

Lemma pool_call cs c i th :
  map th_call (pool c) = cs -> pool c !! i = Some th ->
  cs !! i = Some (th_call th).
Proof. intros <- Hth. by rewrite map_lookup, Hth. Qed.

(** One statement of the thread inside a body: either it returns and
    unlocks, or it stays inside with the mutex untouched. *)
Lemma exec_in_flight j th rp r th' r' :
  exec j th r = Some (th', r') ->
  in_flight rp (m_data r) th ->
  (exists res, th_pc th = at_return res /\
     th' = mk_thread (th_call th) (finished res) /\
     r' = mk_base_mgr (recursive_mutex.unlock (m_mtx r)) (m_data r)) \/
  (m_mtx r' = m_mtx r /\ in_flight rp (m_data r') th').
Proof.
  intros Hexec Hfl. unfold exec in Hexec. destruct th as [cl p].
  unfold in_flight in Hfl. cbn [th_call th_pc] in *.
  destruct p as [| |it| | |res|res]; try done.
  - (* find *)
    destruct cl as [k v|k|k]; try done; injection Hexec as <- <-; right;
      (split; [done|]); unfold in_flight, std_map.find; cbn [th_call th_pc];
      by rewrite Hfl.
  - (* test *)
    destruct cl as [k v|k|k]; try done; destruct Hfl as [Hdata ->];
      injection Hexec as <- <-; right; (split; [done|]);
      unfold in_flight; cbn [th_call th_pc outcome fst snd].
    + rewrite add_result, add_data.
      destruct (m_data rp !! k) eqn:Hk; cbn [th_call th_pc]; by rewrite ?Hk.
    + rewrite get_lookup. by destruct (m_data rp !! k).
  - (* insert *)
    destruct cl as [k v|k|k]; try done. destruct Hfl as [Hdata Hk].
    injection Hexec as <- <-. right. split; [done|].
    unfold in_flight. cbn [th_call th_pc outcome fst snd m_data].
    rewrite add_result, add_data, Hk, Hdata. by rewrite insert_absent.
  - (* erase *)
    destruct cl as [k v|k|k]; try done.
    injection Hexec as <- <-. right. split; [done|].
    unfold in_flight. cbn [th_call th_pc outcome fst snd m_data].
    by rewrite Hfl.
  - (* return *)
    injection Hexec as <- <-. left. by exists res.
Qed.

Lemma settled_more o log log' i j th :
  i ≠ j -> settled o log i th -> settled (o ++ [j]) (log ++ log') i th.
Proof.
  intros Hne [(Hin & res & Hpc & Hres)|[Hout Hpc]]; [left|right].
  - split; [apply elem_of_app; by left|].
    exists res. split; [done|]. apply elem_of_app. by left.
  - split; [|done]. rewrite elem_of_app, list_elem_of_singleton. tauto.
Qed.

Lemma replayed_spawn r cs : replayed r cs [] (spawn r cs).
Proof.
  split; [apply spawn_calls|]. split; [constructor|].
  split; [intros i Hi; by apply elem_of_nil in Hi|].
  left. split; [done|]. intros i th Hth.
  apply spawn_lookup in Hth as (cl & _ & ->). right.
  split; [apply not_elem_of_nil|done].
Qed.

Lemma replayed_step r cs o i c c' :
  m_mtx r = recursive_mutex.free ->
  replayed r cs o c -> step i c = Some c' ->
  replayed r cs (o ++ (if acquires i c then [i] else [])) c'.
Proof.
  intros Hfree (Hcalls & Hnodup & Hvalid & Hstate) Hstep.
  pose proof (step_calls _ _ _ Hstep) as Hcalls'. rewrite Hcalls in Hcalls'.
  apply step_inv in Hstep as (th & th' & r' & Hth & Hexec & ->).
  assert (<[i := th']> (pool c) !! i = Some th') as Hnew.
  { apply list_lookup_insert_eq. eauto using lookup_lt_Some. }
  assert (i < length cs) as Hlen.
  { rewrite <- Hcalls, length_map. eauto using lookup_lt_Some. }
  destruct Hstate as [[Hobj Hset]|(o' & j & thj & -> & Hmtx & Hj & Hfl & Hset)].
  - (* the mutex is free: the thread takes it *)
    destruct (Hset _ _ Hth) as [(_ & res & Hpc & _)|[Hout Hpc]].
    { unfold exec in Hexec. by rewrite Hpc in Hexec. }
    assert (m_mtx (obj c) = None) as Hnone.
    { rewrite Hobj, replay_mutex. exact Hfree. }
    unfold acquires. rewrite Hth, Hpc.
    unfold exec in Hexec. rewrite Hpc, Hnone in Hexec. cbn in Hexec.
    injection Hexec as <- <-.
    split; [done|]. split; [|split].
    + apply NoDup_app. split; [done|]. split; [|apply NoDup_singleton].
      intros x Hx Hx'. apply list_elem_of_singleton in Hx' as ->. done.
    + intros x Hx. apply elem_of_app in Hx as [Hx|Hx]; [by apply Hvalid|].
      by apply list_elem_of_singleton in Hx as ->.
    + right. exists o, i, (mk_thread (th_call th) (body_start (th_call th))).
      cbn [obj pool m_mtx m_data]. repeat split; try done.
      * unfold in_flight. cbn [th_call th_pc]. rewrite Hobj.
        by destruct (th_call th).
      * intros i' thi Hne Hi. rewrite list_lookup_insert_ne in Hi by done.
        rewrite <- (app_nil_r (replay o cs r).2).
        by apply settled_more, Hset.
  - (* the mutex is held: only its holder moves *)
    destruct (decide (i = j)) as [->|Hne].
    2:{ destruct (Hset _ _ Hne Hth) as [(_ & res & Hpc & _)|[_ Hpc]];
          unfold exec in Hexec; rewrite Hpc in Hexec; [done|].
        rewrite Hmtx in Hexec. cbn in Hexec.
        by rewrite decide_False in Hexec by done. }
    rewrite Hth in Hj. injection Hj as <-.
    assert (acquires j c = false) as ->.
    { unfold acquires. rewrite Hth. unfold in_flight in Hfl.
      by destruct (th_pc th). }
    rewrite app_nil_r.
    split; [done|]. split; [done|]. split; [done|].
    destruct (exec_in_flight _ _ _ _ _ _ Hexec Hfl)
      as [(res & Hpc & -> & ->)|[Hsame Hfl']].
    + (* return: the call is complete *)
      left. cbn [obj pool].
      pose proof (pool_call _ _ _ _ Hcalls Hth) as Hcl.
      unfold in_flight in Hfl. rewrite Hpc in Hfl. destruct Hfl as [Hres Hdata].
      rewrite (replay_snoc _ _ _ _ _ Hcl). cbn [fst snd]. split.
      * apply mgr_eq; cbn [m_mtx m_data]; [|done].
        rewrite Hmtx, outcome_mutex, replay_mutex, Hfree. done.
      * intros i' thi Hi.
        destruct (lookup_updated _ _ _ _ _ _ Hth Hi) as [[-> ->]|[Hne Hi']].
        -- left. split; [apply elem_of_app; right; by apply list_elem_of_singleton|].
           exists res. split; [done|]. apply elem_of_app. right.
           apply list_elem_of_singleton. by rewrite Hres.
        -- destruct (Hset _ _ Hne Hi') as [(Hin & res' & Hpc' & Hres')|[Hout Hpc']];
             [left|right]; [|done].
           split; [done|]. exists res'. split; [done|]. apply elem_of_app. by left.
    + right. exists o', j, th'. cbn [obj pool]. rewrite Hsame.
      repeat split; try done.
      intros i' thi Hne Hi. rewrite list_lookup_insert_ne in Hi by done.
      by apply Hset.
Qed.

Lemma replayed_run r cs sched o c c' :
  m_mtx r = recursive_mutex.free ->
  replayed r cs o c -> run sched c = Some c' ->
  replayed r cs (o ++ lock_order sched c) c'.
Proof.
  intros Hfree. revert o c.
  induction sched as [|i sched IH]; intros o c Hrep; cbn [run lock_order].
  - intros [= <-]. by rewrite app_nil_r.
  - destruct (step i c) as [c1|] eqn:Hstep; [|done]. intros Hrun.
    rewrite app_assoc. apply (IH _ c1); [|done].
    by apply replayed_step.
Qed.
(** Every complete execution is the replay of its lock order. *)
Lemma lock_order_replay r cs sched c :
  m_mtx r = recursive_mutex.free ->
  run sched (spawn r cs) = Some c -> all_returned c = true ->
  let order := lock_order sched (spawn r cs) in
  NoDup order /\
  (forall i, i ∈ order <-> i < length cs) /\
  (replay order cs r).2.*1 = order /\
  obj c = (replay order cs r).1 /\
  (forall i th, pool c !! i = Some th ->
     exists res, th_pc th = finished res /\ (i, res) ∈ (replay order cs r).2).
Proof.
  intros Hfree Hrun Hret order.
  pose proof (replayed_run r cs sched [] _ _ Hfree (replayed_spawn r cs) Hrun)
    as (Hcalls & Hnodup & Hvalid & Hstate).
  rewrite app_nil_l in *. fold order in Hnodup, Hvalid, Hstate.
  destruct Hstate as [[Hobj Hset]|(o' & j & thj & _ & _ & Hj & Hfl & _)].
  2:{ pose proof (forallb_lookup _ _ _ _ Hret Hj) as Hfin.
      unfold has_returned in Hfin. unfold in_flight in Hfl.
      by destruct (th_pc thj). }
  assert (forall i th, pool c !! i = Some th ->
            i ∈ order /\ exists res, th_pc th = finished res /\
              (i, res) ∈ (replay order cs r).2) as Hdone.
  { intros i th Hth. destruct (Hset _ _ Hth) as [Hleft|[_ Hpc]]; [done|].
    pose proof (forallb_lookup _ _ _ _ Hret Hth) as Hfin.
    unfold has_returned in Hfin. by rewrite Hpc in Hfin. }
  split; [done|]. split; [|split; [by apply replay_threads|split; [done|]]].
  - intros i. split; [apply Hvalid|]. intros Hi.
    destruct (lookup_lt_is_Some_2 (pool c) i) as [th Hth].
    { by rewrite <- (length_map th_call), Hcalls. }
    by destruct (Hdone _ _ Hth).
  - intros i th Hth. by destruct (Hdone _ _ Hth).
Qed.

(** X14: add, get and del are linearizable.  Take any threads, each with
    one call of add, get or del on the same manager, and any schedule that
    lets every call return.  Then every thread took the mutex exactly once,
    and the manager at the end and the value each call returned are those
    of the same calls made one after the other, as whole calls, in the
    order in which the threads took the mutex. *)
Theorem linearizable r cs sched c :
  m_mtx r = recursive_mutex.free ->
  run sched (spawn r cs) = Some c -> all_returned c = true ->
  let order := lock_order sched (spawn r cs) in
  NoDup order /\
  (forall i, i ∈ order <-> i < length cs) /\
  (replay order cs r).2.*1 = order /\
  obj c = (replay order cs r).1 /\
  (forall i th, pool c !! i = Some th ->
     exists res, th_pc th = finished res /\ (i, res) ∈ (replay order cs r).2).
Proof. apply lock_order_replay. Qed.

Lemma replay_gets o (ks : list key_t) r :
  (replay o (map call_get ks) r).1 = r /\
  (forall i res, (i, res) ∈ (replay o (map call_get ks) r).2 ->
     exists k, ks !! i = Some k /\ res = ret_ptr (get k r)).
Proof.
  induction o as [|j o [IHr IHl]]; cbn [replay].
  - split; [done|]. intros i res Hin. by apply elem_of_nil in Hin.
  - rewrite map_lookup. destruct (ks !! j) as [k|] eqn:Hk; cbn [fmap option_fmap option_map];
      [|done].
    cbn [outcome fst snd]. split; [done|]. intros i res Hin.
    apply elem_of_cons in Hin as [[= -> ->]|Hin]; [by exists k|]. by apply IHl.
Qed.

(** X15: readers do not disturb each other.  When every thread calls get,
    each call returns what get returns on the manager as it was at the
    start, and the manager is unchanged at the end, whatever the
    schedule. *)
Theorem gets_read_initial r (ks : list key_t) sched c :
  m_mtx r = recursive_mutex.free ->
  run sched (spawn r (map call_get ks)) = Some c -> all_returned c = true ->
  obj c = r /\
  (forall i th, pool c !! i = Some th ->
     exists k, ks !! i = Some k /\ th_pc th = finished (ret_ptr (get k r))).
Proof.
  intros Hfree Hrun Hret.
  destruct (lock_order_replay _ _ _ _ Hfree Hrun Hret) as (_ & _ & _ & Hobj & Hres).
  destruct (replay_gets (lock_order sched (spawn r (map call_get ks))) ks r)
    as [Hr Hl].
  split; [by rewrite Hobj|]. intros i th Hth.
  destruct (Hres _ _ Hth) as (res & Hpc & Hin).
  destruct (Hl _ _ Hin) as (k & Hk & ->). by exists k.
Qed.

Lemma two_threads_order o :
  NoDup o -> (forall i, i ∈ o <-> i < 2) -> o = [0; 1] \/ o = [1; 0].
Proof.
  intros Hnodup Hmem.
  assert (0 ∈ o) as H0 by (apply Hmem; lia).
  assert (1 ∈ o) as H1 by (apply Hmem; lia).
  destruct o as [|a o]; [by apply elem_of_nil in H0|].
  assert (a < 2) as Ha by (apply Hmem; by left).
  apply NoDup_cons in Hnodup as [Hao Hnodup].
  destruct o as [|b o].
  { apply list_elem_of_singleton in H0, H1. lia. }
  assert (b < 2) as Hb by (apply Hmem; right; by left).
  assert (a ≠ b) as Hab by (intros ->; apply Hao; by left).
  apply NoDup_cons in Hnodup as [Hbo _].
  destruct o as [|x o].
  { assert (a = 0 /\ b = 1 \/ a = 1 /\ b = 0) as [[-> ->]|[-> ->]] by lia; eauto. }
  assert (x < 2) as Hx by (apply Hmem; right; right; by left).
  assert (a ≠ x) by (intros ->; apply Hao; right; by left).
  assert (b ≠ x) by (intros ->; apply Hbo; by left).
  lia.
Qed.

(** X16: a race between add and del on one key.  When one thread calls
    add(k, v) and another del(k), the execution ends as one of the two
    sequential orders would: either add returned what it returns on the
    manager at the start and the key is gone, or del went first, add
    returned true and the key is mapped to v. *)
Theorem add_del_race r k v sched c :
  m_mtx r = recursive_mutex.free ->
  run sched (spawn r [call_add k v; call_del k]) = Some c ->
  all_returned c = true ->
  (pool c = [mk_thread (call_add k v) (finished (ret_bool (add k v r).1));
             mk_thread (call_del k) (finished ret_void)] /\
   obj c = del k (add k v r).2 /\ m_data (obj c) !! k = None) \/
  (pool c = [mk_thread (call_add k v) (finished (ret_bool true));
             mk_thread (call_del k) (finished ret_void)] /\
   obj c = (add k v (del k r)).2 /\ m_data (obj c) !! k = Some v).
Proof.
  intros Hfree Hrun Hret.
  pose proof (run_calls _ _ _ Hrun) as Hcalls. rewrite spawn_calls in Hcalls.
  destruct (lock_order_replay _ _ _ _ Hfree Hrun Hret)
    as (Hnodup & Hmem & _ & Hobj & Hres).
  assert (exists th0 th1, pool c = [th0; th1]) as (th0 & th1 & Hpool).
  { destruct (pool c) as [|th0 [|th1 [|th2 l]]]; try done. eauto. }
  rewrite Hpool in Hcalls, Hres. injection Hcalls as Hc0 Hc1.
  destruct (Hres 0 th0 eq_refl) as (res0 & Hpc0 & Hin0).
  destruct (Hres 1 th1 eq_refl) as (res1 & Hpc1 & Hin1).
  assert (th0 = mk_thread (call_add k v) (finished res0)) as ->.
  { destruct th0; cbn in *; congruence. }
  assert (th1 = mk_thread (call_del k) (finished res1)) as ->.
  { destruct th1; cbn in *; congruence. }
  assert (m_data (del k r) !! k = None) as Hgone.
  { rewrite del_lookup. by rewrite decide_True. }
  destruct (two_threads_order _ Hnodup Hmem) as [Ho|Ho];
    rewrite Ho in Hobj, Hin0, Hin1; cbn [replay lookup list_lookup outcome fst snd]
      in Hobj, Hin0, Hin1;
    rewrite !elem_of_cons, elem_of_nil in Hin0, Hin1;
    destruct Hin0 as [Hin0|[Hin0|[]]]; destruct Hin1 as [Hin1|[Hin1|[]]];
    try discriminate Hin0; try discriminate Hin1;
    injection Hin0 as ->; injection Hin1 as ->.
  - left. rewrite Hpool, Hobj. repeat split.
    rewrite del_lookup. by rewrite decide_True.
  - right. rewrite Hpool, Hobj. rewrite add_absent by done.
    cbn [fst snd m_data]. split; [done|]. split; [done|].
    apply lookup_insert_eq.
Qed.

(** X17: no deadlock and no endless run, for any mix of add, get and del:
    a schedule of N calls never has more than 5N statements, and from
    every state it reaches the execution can be continued until every call
    has returned. *)
Theorem calls_finish r cs sched c :
  m_mtx r = recursive_mutex.free ->
  run sched (spawn r cs) = Some c ->
  length sched <= 5 * length cs /\
  exists sched' c', run sched' c = Some c' /\ all_returned c' = true.
Proof.
  intros Hfree Hrun. split.
  - pose proof (run_bound _ _ _ Hrun) as Hbound.
    rewrite work_left_spawn in Hbound. lia.
  - apply completion. eapply serialized_run; [|exact Hrun].
    by apply serialized_spawn.
Qed.

(** X18: while one thread is inside the body of add, get or del, every
    other thread is outside the bodies and cannot execute a statement: it
    has returned, or it waits for the mutex. *)
Theorem bodies_never_overlap r cs sched c j thj i thi :
  m_mtx r = recursive_mutex.free ->
  run sched (spawn r cs) = Some c ->
  pool c !! j = Some thj -> in_section thj = true ->
  pool c !! i = Some thi -> i ≠ j ->
  in_section thi = false /\ step i c = None.
Proof.
  intros Hfree Hrun Hj Hin Hi Hne.
  assert (serialized c) as [Hown _ _].
  { eapply serialized_run; [|exact Hrun]. by apply serialized_spawn. }
  apply (Hown _ _ Hj) in Hin.
  assert (in_section thi = false) as Hout.
  { destruct (in_section thi) eqn:Hini; [|done].
    apply (Hown _ _ Hi) in Hini. congruence. }
  split; [done|]. unfold step. rewrite Hi. unfold exec. rewrite Hin.
  unfold in_section in Hout. destruct (th_pc thi); try done.
  cbn. by rewrite decide_False by done.
Qed.

(** X19: the mutex is free exactly when no thread is inside a body; in
    particular no call leaves it locked: once every call has returned the
    mutex is free again. *)
Theorem mutex_released r cs sched c :
  m_mtx r = recursive_mutex.free ->
  run sched (spawn r cs) = Some c ->
  (m_mtx (obj c) = recursive_mutex.free <->
     forall i th, pool c !! i = Some th -> in_section th = false) /\
  (all_returned c = true -> m_mtx (obj c) = recursive_mutex.free).
Proof.
  intros Hfree Hrun.
  assert (serialized c) as [Hown Hmtx _].
  { eapply serialized_run; [|exact Hrun]. by apply serialized_spawn. }
  assert ((forall i th, pool c !! i = Some th -> in_section th = false) ->
          m_mtx (obj c) = recursive_mutex.free) as Hback.
  { intros Hout. destruct Hmtx as [|(i & Hi & [th Hth])]; [done|].
    apply (Hown _ _ Hth) in Hi. rewrite (Hout _ _ Hth) in Hi. done. }
  split; [split; [|done]|].
  - intros Hnone i th Hth. destruct (in_section th) eqn:Hin; [|done].
    apply (Hown _ _ Hth) in Hin. unfold recursive_mutex.free in Hnone. congruence.
  - intros Hret. apply Hback. intros i th Hth.
    pose proof (forallb_lookup _ _ _ _ Hret Hth) as Hfin.
    unfold has_returned in Hfin. unfold in_section. by destruct (th_pc th).
Qed.

(** X20: the mutex is re-entrant for the three methods.  A thread that
    calls add, get or del while the mutex is free, or while it holds the
    mutex itself, runs through in at most five statements and gets the
    result and the manager of the method, with the mutex as it was before
    the call.  A thread that calls while another thread holds the mutex
    cannot execute a statement. *)
Theorem call_alone (cl : call key_t) r :
  (m_mtx r = recursive_mutex.free \/ (exists n, m_mtx r = Some (0, S n)) ->
   exists n, n <= 5 /\
     run (replicate n 0) (spawn r [cl]) =
       Some (mk_config (outcome cl r).2
                       [mk_thread cl (finished (outcome cl r).1)])) /\
  (forall j n, m_mtx r = Some (j, n) -> j ≠ 0 -> step 0 (spawn r [cl]) = None).
Proof.
  split.
  - destruct r as [mtx data]. cbn [m_mtx]. intros Hm.
    destruct cl as [k v|k|k].
    + destruct (data !! k) as [x|] eqn:Hk.
      * exists 4. split; [lia|]. cbn [outcome]. rewrite add_present by (cbn; eauto).
        destruct Hm as [->|[n ->]]; cbn; rewrite ?decide_True by done; cbn;
          unfold std_map.find; by rewrite Hk.
      * exists 5. split; [lia|]. cbn [outcome]. rewrite add_absent by done.
        destruct Hm as [->|[n ->]]; cbn; rewrite ?decide_True by done; cbn;
          unfold std_map.find; rewrite Hk; cbn; by rewrite insert_absent.
    + exists 4. split; [lia|].
      destruct Hm as [->|[n ->]]; cbn; rewrite ?decide_True by done; cbn;
        unfold get, std_map.find; cbn; by destruct (data !! k).
    + exists 3. split; [lia|].
      destruct Hm as [->|[n ->]]; cbn; rewrite ?decide_True by done; done.
  - intros j n Hm Hne. unfold step, exec. cbn. rewrite Hm. cbn.
    by rewrite decide_False.
Qed.
End machine_more.

Lemma linearizable_witness :
  let r : _base_mgr Z := _base_mgr_ctor in
  let cs := [call_add 0%Z (Some 1); call_get 0%Z; call_del 0%Z] in
  let sched := [1; 1; 1; 1; 0; 0; 0; 0; 0; 2; 2; 2] in
  let order := lock_order sched (spawn r cs) in
  exists c,
    (m_mtx r = recursive_mutex.free /\
     run sched (spawn r cs) = Some c /\ all_returned c = true) /\
    order = [1; 0; 2] /\
    (replay order cs r).2 = [(1, ret_ptr nullptr); (0, ret_bool true); (2, ret_void)] /\
    (NoDup order /\
     (forall i, i ∈ order <-> i < length cs) /\
     (replay order cs r).2.*1 = order /\
     obj c = (replay order cs r).1 /\
     (forall i th, pool c !! i = Some th ->
        exists res, th_pc th = finished res /\ (i, res) ∈ (replay order cs r).2)).
Proof.
  intros r cs sched order. eexists.
  assert (m_mtx r = recursive_mutex.free) as Hfree by reflexivity.
  split; [split; [exact Hfree|split; vm_compute; reflexivity]|].
  split; [vm_compute; reflexivity|]. split; [vm_compute; reflexivity|].
  apply (linearizable r cs sched); [exact Hfree|vm_compute; reflexivity..].
Defined.

Lemma gets_read_initial_witness :
  let r : _base_mgr Z := mk_base_mgr recursive_mutex.free {[ 0%Z := Some 5 ]} in
  let ks := [0%Z; 1%Z] in
  let sched := [1; 1; 1; 1; 0; 0; 0; 0] in
  exists c,
    (m_mtx r = recursive_mutex.free /\
     run sched (spawn r (map call_get ks)) = Some c /\ all_returned c = true) /\
    obj c = r /\
    (forall i th, pool c !! i = Some th ->
       exists k, ks !! i = Some k /\ th_pc th = finished (ret_ptr (get k r))).
Proof.
  intros r ks sched. eexists.
  assert (m_mtx r = recursive_mutex.free) as Hfree by reflexivity.
  split; [split; [exact Hfree|split; vm_compute; reflexivity]|].
  apply (gets_read_initial r ks sched); [exact Hfree|vm_compute; reflexivity..].
Defined.

Lemma add_del_race_witness :
  let r : _base_mgr Z := mk_base_mgr recursive_mutex.free {[ 0%Z := Some 5 ]} in
  let cs := [call_add 0%Z (Some 1); call_del 0%Z] in
  exists c1 c2,
    (m_mtx r = recursive_mutex.free /\
     run [0; 0; 0; 0; 1; 1; 1] (spawn r cs) = Some c1 /\ all_returned c1 = true /\
     run [1; 1; 1; 0; 0; 0; 0; 0] (spawn r cs) = Some c2 /\ all_returned c2 = true) /\
    m_data (obj c1) !! 0%Z = None /\
    m_data (obj c2) !! 0%Z = Some (Some 1) /\
    ((pool c2 = [mk_thread (call_add 0%Z (Some 1)) (finished (ret_bool (add 0%Z (Some 1) r).1));
                 mk_thread (call_del 0%Z) (finished ret_void)] /\
      obj c2 = del 0%Z (add 0%Z (Some 1) r).2 /\ m_data (obj c2) !! 0%Z = None) \/
     (pool c2 = [mk_thread (call_add 0%Z (Some 1)) (finished (ret_bool true));
                 mk_thread (call_del 0%Z) (finished ret_void)] /\
      obj c2 = (add 0%Z (Some 1) (del 0%Z r)).2 /\
      m_data (obj c2) !! 0%Z = Some (Some 1))).
Proof.
  intros r cs. eexists. eexists.
  assert (m_mtx r = recursive_mutex.free) as Hfree by reflexivity.
  split; [split; [exact Hfree|repeat split; vm_compute; reflexivity]|].
  split; [vm_compute; reflexivity|]. split; [vm_compute; reflexivity|].
  apply (add_del_race r 0%Z (Some 1) [1; 1; 1; 0; 0; 0; 0; 0]);
    [exact Hfree|vm_compute; reflexivity..].
Defined.

Lemma calls_finish_witness :
  let r : _base_mgr Z := _base_mgr_ctor in
  let cs := [call_add 0%Z (Some 1); call_del 0%Z; call_get 0%Z] in
  exists c,
    (m_mtx r = recursive_mutex.free /\ run [2; 2] (spawn r cs) = Some c) /\
    length [2; 2] <= 5 * length cs /\
    exists sched' c', run sched' c = Some c' /\ all_returned c' = true.
Proof.
  intros r cs. eexists.
  assert (m_mtx r = recursive_mutex.free) as Hfree by reflexivity.
  split; [split; [exact Hfree|vm_compute; reflexivity]|].
  apply (calls_finish r cs [2; 2]); [exact Hfree|vm_compute; reflexivity].
Defined.

Lemma bodies_never_overlap_witness :
  let r : _base_mgr Z := _base_mgr_ctor in
  let cs := [call_add 0%Z (Some 1); call_del 0%Z] in
  exists c thj thi,
    (m_mtx r = recursive_mutex.free /\ run [0; 0] (spawn r cs) = Some c /\
     pool c !! 0 = Some thj /\ in_section thj = true /\
     pool c !! 1 = Some thi /\ 1 ≠ 0) /\
    in_section thi = false /\ step 1 c = None.
Proof.
  intros r cs. eexists. eexists. eexists.
  assert (m_mtx r = recursive_mutex.free) as Hfree by reflexivity.
  split;
    [split; [exact Hfree|split; [vm_compute; reflexivity|
       split; [reflexivity|split; [reflexivity|split; [reflexivity|done]]]]]|].
  eapply (bodies_never_overlap r cs [0; 0] _ 0 _ 1);
    [exact Hfree|vm_compute; reflexivity|reflexivity|reflexivity|reflexivity|done].
Defined.

Lemma mutex_released_witness :
  let r : _base_mgr Z := _base_mgr_ctor in
  let cs := [call_add 0%Z (Some 1); call_del 0%Z] in
  exists c,
    (m_mtx r = recursive_mutex.free /\
     run [1; 1; 1; 0; 0; 0; 0; 0] (spawn r cs) = Some c /\
     all_returned c = true) /\
    m_mtx (obj c) = recursive_mutex.free.
Proof.
  intros r cs. eexists.
  assert (m_mtx r = recursive_mutex.free) as Hfree by reflexivity.
  split; [split; [exact Hfree|split; vm_compute; reflexivity]|].
  match goal with
  | |- m_mtx (obj ?c) = _ =>
      destruct (mutex_released r cs [1; 1; 1; 0; 0; 0; 0; 0] c Hfree) as [_ Hend];
        [vm_compute; reflexivity|]
  end.
  apply Hend. vm_compute. reflexivity.
Defined.

Lemma call_alone_witness :
  let held : _base_mgr Z := mk_base_mgr (Some (0, 1)) {[ 0%Z := Some 5 ]} in
  let taken : _base_mgr Z := mk_base_mgr (Some (3, 1)) {[ 0%Z := Some 5 ]} in
  ((exists n, m_mtx held = Some (0, S n)) /\
   exists n, n <= 5 /\
     run (replicate n 0) (spawn held [call_add 1%Z (Some 6)]) =
       Some (mk_config (outcome (call_add 1%Z (Some 6)) held).2
               [mk_thread (call_add 1%Z (Some 6))
                  (finished (outcome (call_add 1%Z (Some 6)) held).1)])) /\
  (m_mtx taken = Some (3, 1) /\ 3 ≠ 0 /\
   step 0 (spawn taken [call_add 1%Z (Some 6)]) = None).
Proof.
  intros held taken.
  destruct (call_alone (call_add 1%Z (Some 6)) held) as [Hrun _].
  destruct (call_alone (call_add 1%Z (Some 6)) taken) as [_ Hwait].
  split.
  - assert (exists n, m_mtx held = Some (0, S n)) as Hheld by (by exists 0).
    split; [exact Hheld|]. apply Hrun. right. exact Hheld.
  - split; [reflexivity|]. split; [done|]. by apply (Hwait 3 1).
Defined.

Lemma instance_new_manager_witness :
  let w0 : test.process := start tt in
  let w := (instance w0).2 in
  exists a,
    (instance w).1 = Some a /\
    (0 ≠ a /\ mgrs (instance w).2 !! 0 = mgrs w !! 0) /\
    ptr_get (Some a) 7%Z (instance w).2 = Some (nullptr, (instance w).2).
Proof.
  intros w0 w.
  destruct (instance_new_manager w) as (a & Ha & _ & _ & Hothers & _ & _ & Hget & _).
  exists a. split; [exact Ha|].
  assert (a = 1) as -> by (vm_compute in Ha; congruence).
  split; [split; [done|apply Hothers; done]|apply Hget].
Defined.

Section machine_adds.
Context `{Countable key_t}.

(** X21: concurrent adds only ever extend the map.  When every thread
    calls add and every call has returned, each entry the map held at the
    start is still there with the same handle; a thread whose add returned
    true finds its own handle under its key, and a thread whose add
    returned false finds its key present. *)
Theorem adds_extend_map (r : _base_mgr key_t) args sched c :
  m_mtx r = recursive_mutex.free ->
  run sched (spawn r (add_calls args)) = Some c -> all_returned c = true ->
  m_data r ⊆ m_data (obj c) /\
  (forall i th, pool c !! i = Some th ->
     exists a b, args !! i = Some a /\
       th = mk_thread (call_add a.1 a.2) (finished (ret_bool b)) /\
       is_Some (m_data (obj c) !! a.1) /\
       (b = true -> m_data (obj c) !! a.1 = Some a.2)).
Proof.
  intros Hfree Hrun Hret.
  assert (add_inv (m_data r) c) as Hinv.
  { eapply add_inv_run; [|apply add_inv_spawn|exact Hrun].
    by apply serialized_spawn. }
  assert (map th_call (pool c) = add_calls args) as Hcalls.
  { rewrite (run_calls _ _ _ Hrun). apply spawn_calls. }
  split; [apply (ai_kept _ _ Hinv)|]. intros i th Hth.
  destruct (returned_thread _ _ _ _ Hinv Hret Hth) as (k & v & b & -> & Hsome & Hv).
  destruct (thread_arg _ _ _ _ Hcalls Hth) as (a & Ha & Hcall).
  cbn [th_call] in Hcall. injection Hcall as -> ->. by exists a, b.
Qed.
End machine_adds.

Lemma adds_extend_map_witness :
  let r : _base_mgr Z := mk_base_mgr recursive_mutex.free {[ 7%Z := Some 9 ]} in
  let args := [(0%Z, Some 1); (0%Z, Some 2); (7%Z, Some 3)] in
  let sched := [1; 1; 1; 1; 1; 2; 2; 2; 2; 0; 0; 0; 0] in
  exists c,
    (m_mtx r = recursive_mutex.free /\
     run sched (spawn r (add_calls args)) = Some c /\ all_returned c = true) /\
    m_data (obj c) = {[ 0%Z := Some 2; 7%Z := Some 9 ]} /\
    m_data r ⊆ m_data (obj c) /\
    (forall i th, pool c !! i = Some th ->
       exists a b, args !! i = Some a /\
         th = mk_thread (call_add a.1 a.2) (finished (ret_bool b)) /\
         is_Some (m_data (obj c) !! a.1) /\
         (b = true -> m_data (obj c) !! a.1 = Some a.2)).
Proof.
  intros r args sched. eexists.
  assert (m_mtx r = recursive_mutex.free) as Hfree by reflexivity.
  split; [split; [exact Hfree|split; vm_compute; reflexivity]|].
  split; [vm_compute; reflexivity|].
  apply (adds_extend_map r args sched); [exact Hfree|vm_compute; reflexivity..].
Defined.
